(** * A streaming QOI decoder (qoi.js): shallow embedding and verification

    The decoder of the image viewer is one function, [getQoiPixelData],
    which reads a stream of byte chunks and runs a byte-at-a-time state
    machine over them, and a helper, [parseQoiHeaderBytes], which decodes
    the 14-byte header.  Both are embedded here as executable functions:

    - JavaScript numbers that the code uses as integers are [Z]; the
      32-bit bitwise operators are written with their wrap-around;
    - typed arrays ([Uint8Array], [Uint8ClampedArray]) are [list Z] with the
      element conversion of each store written out;
    - the local variables of [getQoiPixelData], which live across all
      chunks, are the fields of the record [State];
    - a thrown exception is the [Err] case of [result].

    The diagnostic [log] array of the source is write-only and is left out
    of the embedding. *)

From Stdlib Require Import ZArith List Bool Lia.
From Stdlib.Strings Require Import Byte.
Import ListNotations.
Local Open Scope Z_scope.

(** ** Exceptions *)

Inductive Error : Type :=
| HeaderMagicMismatch        (* Error("QOI header magic bytes do not match") *)
| UnsupportedChannelMode     (* Error("Unrecognised channels mode in header") *)
| UnsupportedColorspaceMode  (* Error("Unrecognised colorsace mode in header") *)
| TrailerMismatch            (* Error("Trailer bytes mismatch") *)
| RangeError                 (* thrown by the typed-array constructor and by set *)
| TypeError.                 (* property access on undefined *)

Inductive result (A : Type) : Type :=
| Ok (a : A)
| Err (e : Error).
Arguments Ok {A} a.
Arguments Err {A} e.

Definition bind {A B : Type} (r : result A) (k : A -> result B) : result B :=
  match r with
  | Ok a => k a
  | Err e => Err e
  end.

Notation "x <- r ;; k" := (bind r (fun x => k))
  (at level 61, r at next level, right associativity).

(** ** JavaScript integer operators *)

Module JS.

(** ToInt32: the value modulo 2^32, read as a signed 32-bit integer. *)
Definition to_int32 (z : Z) : Z :=
  let m := z mod 2 ^ 32 in
  if 2 ^ 31 <=? m then m - 2 ^ 32 else m.

(** [x << n], for a shift count [0 <= n < 32]. *)
Definition shl (x n : Z) : Z := to_int32 (Z.shiftl (to_int32 x) n).

(** [x >> n], the sign-propagating shift, for [0 <= n < 32]. *)
Definition sar (x n : Z) : Z := Z.shiftr (to_int32 x) n.

(** [x | y] and [x & y]: [Z.lor] and [Z.land] are two's complement, so on
    two signed 32-bit operands they give the signed 32-bit result. *)
Definition or (x y : Z) : Z := Z.lor (to_int32 x) (to_int32 y).
Definition and (x y : Z) : Z := Z.land (to_int32 x) (to_int32 y).

(** [x % y] on numbers: the remainder has the sign of the dividend. *)
Definition rem (x y : Z) : Z := Z.rem x y.

End JS.

(** ** Typed arrays *)

Module TA.

(** Element conversion on a store: [Uint8Array] wraps, [Uint8ClampedArray]
    clamps (all stored values are integers here). *)
Definition to_uint8 (v : Z) : Z := v mod 256.
Definition to_uint8_clamp (v : Z) : Z :=
  if v <? 0 then 0 else if 255 <? v then 255 else v.

Definition length (a : list Z) : Z := Z.of_nat (List.length a).

(** [new Uint8ClampedArray(n)]: a [RangeError] unless [n] is a valid
    index (ToIndex: [0 <= n <= 2^53 - 1]); otherwise [n] zeros. *)
Definition make (n : Z) : result (list Z) :=
  if (n <? 0) || (2 ^ 53 - 1 <? n) then Err RangeError
  else Ok (repeat 0 (Z.to_nat n)).

(** [a[i]] for an index the code keeps inside the array; every read of
    the source is of this kind.  (Out of range JavaScript gives
    [undefined], which the bitwise operators read as 0.) *)
Definition get (a : list Z) (i : Z) : Z := nth (Z.to_nat i) a 0.

(** [a[i] = v]: the converted value is stored; an index outside the
    array is ignored. *)
Definition put (conv : Z -> Z) (a : list Z) (i v : Z) : list Z :=
  if (0 <=? i) && (i <? length a)
  then firstn (Z.to_nat i) a ++ conv v :: skipn (Z.to_nat (i + 1)) a
  else a.

(** [target.set(source, offset)] between arrays of one element type:
    a [RangeError] when the source does not fit at the offset. *)
Definition set (target source : list Z) (offset : Z) : result (list Z) :=
  if (offset <? 0) || (length target <? length source + offset)
  then Err RangeError
  else Ok (firstn (Z.to_nat offset) target ++ source
           ++ skipn (Z.to_nat (offset + length source)) target).

(** [a.slice(start, stop)] for [0 <= start <= stop]; a [stop] past the
    end is cut to the length. *)
Definition slice (a : list Z) (start stop : Z) : list Z :=
  firstn (Z.to_nat (stop - start)) (skipn (Z.to_nat start) a).

(** [a.fill(v)]. *)
Definition fill (conv : Z -> Z) (a : list Z) (v : Z) : list Z :=
  map (fun _ => conv v) a.

End TA.

(** A byte delivered by the stream, as the number the code sees. *)
Definition u8 (b : byte) : Z := Z.of_N (Byte.to_N b).

(** The byte of a number in [0, 255] (0 otherwise); used to write inputs. *)
Definition byte_of (z : Z) : byte :=
  match Byte.of_N (Z.to_N z) with
  | Some b => b
  | None => Byte.x00
  end.

(** ** Constants of qoi.js *)

(* "qoif" *)
Definition QOI_HEADER_MAGIC : list Z := [113; 111; 105; 102].

(* magic + u32 width + u32 height + u8 channels + u8 colorspace *)
Definition QOI_HEADER_SIZE : Z :=
  TA.length QOI_HEADER_MAGIC + (32 + 32 + 8 + 8) / 8.

Definition CHANNELS_RGB : Z := 3.
Definition CHANNELS_RGBA : Z := 4.
Definition SUPPORTED_CHANNEL_MODES : list Z := [CHANNELS_RGB; CHANNELS_RGBA].

Definition COLORSPACE_SRGB : Z := 0.
Definition COLORSPACE_LINEAR : Z := 1.
Definition SUPPORTED_COLORSPACE_MODES : list Z :=
  [COLORSPACE_SRGB; COLORSPACE_LINEAR].

Definition OP_RGB_BITS : Z := 254.    (* 0b11111110 *)
Definition OP_RGBA_BITS : Z := 255.   (* 0b11111111 *)
Definition OP_INDEX_BITS : Z := 0.    (* 0b00000000 *)
Definition OP_DIFF_BITS : Z := 64.    (* 0b01000000 *)
Definition OP_LUMA_BITS : Z := 128.   (* 0b10000000 *)
Definition OP_RUN_BITS : Z := 192.    (* 0b11000000 *)

(** The numeric opcode ids of the source as an enumeration. *)
Inductive OpId : Type :=
| OP_NONE_ID
| OP_HEAD_ID
| OP_RGB_ID
| OP_RGBA_ID
| OP_INDEX_ID
| OP_DIFF_ID
| OP_LUMA_ID
| OP_RUN_ID.

Definition INDEX_ARRAY_SIZE : Z := 64.

(** ** parseQoiHeaderBytes *)

Record Header : Type := mkHeader {
  h_width : Z;
  h_height : Z;
  h_channels : Z;
  h_colorspace : Z }.

(** [array.includes(v)] on an array of numbers. *)
Definition includes (a : list Z) (v : Z) : bool := existsb (Z.eqb v) a.

(** [magic.every((byte, i) => buffer[i] === byte)], from index [i] on. *)
Fixpoint every_magic (magic : list Z) (i : Z) (buffer : list Z) : bool :=
  match magic with
  | [] => true
  | byte :: rest =>
      (TA.get buffer i =? byte) && every_magic rest (i + 1) buffer
  end.

(** An array object is truthy, whatever it holds. *)
Definition truthy_array (a : list Z) : bool := true.

Definition parseQoiHeaderBytes (buffer : list Z) : result Header :=
  if negb (every_magic QOI_HEADER_MAGIC 0 buffer) then Err HeaderMagicMismatch
  else
    let width :=
      JS.or (JS.or (JS.or (JS.shl (TA.get buffer 4) 24)
                          (JS.shl (TA.get buffer 5) 16))
                   (JS.shl (TA.get buffer 6) 8))
            (TA.get buffer 7) in
    let height :=
      JS.or (JS.or (JS.or (JS.shl (TA.get buffer 8) 24)
                          (JS.shl (TA.get buffer 9) 16))
                   (JS.shl (TA.get buffer 10) 8))
            (TA.get buffer 11) in
    let channels := TA.get buffer 12 in
    if negb (includes SUPPORTED_CHANNEL_MODES channels)
    then Err UnsupportedChannelMode
    else
      let colorspace := TA.get buffer 13 in
      (* if (!SUPPORTED_COLORSPACE_MODES) throw ... *)
      if negb (truthy_array SUPPORTED_COLORSPACE_MODES)
      then Err UnsupportedColorspaceMode
      else Ok (mkHeader width height channels colorspace).

(** Modelled from the spec: the repository has no encoder, so the 14-byte
    serialization of a header is written from the format description:
    the 4-byte magic, width and height as big-endian 32-bit unsigned
    integers, one byte of channels, one byte of colorspace. *)
Definition be32 (n : Z) : list Z :=
  [ (n / 2 ^ 24) mod 256; (n / 2 ^ 16) mod 256; (n / 2 ^ 8) mod 256; n mod 256 ].

Definition serializeQoiHeader (h : Header) : list Z :=
  QOI_HEADER_MAGIC ++ be32 (h_width h) ++ be32 (h_height h)
  ++ [h_channels h; h_colorspace h].

Definition valid_header (h : Header) : Prop :=
  0 <= h_width h < 2 ^ 32 /\ 0 <= h_height h < 2 ^ 32 /\
  (h_channels h = 3 \/ h_channels h = 4) /\
  (h_colorspace h = 0 \/ h_colorspace h = 1).

(** ** getQoiPixelData: the decoder state *)

(** The local variables of [getQoiPixelData].  [width], [height],
    [channels], [colorspace] and [pixels] are declared without a value
    ([None] is JavaScript's [undefined]). *)
Record State : Type := mkState {
  seenHeader : bool;
  headerBuffer : list Z;        (* Uint8Array(QOI_HEADER_SIZE) *)
  headerBufferOffset : Z;
  width : option Z;
  height : option Z;
  channels : option Z;
  colorspace : option Z;
  pixels : option (list Z);     (* Uint8ClampedArray(width * height * 4) *)
  pixelOffset : Z;
  lastPixel : list Z;           (* Uint8ClampedArray([0, 0, 0, 255]) *)
  indexValues : list Z;         (* Uint8ClampedArray(INDEX_ARRAY_SIZE * 4) *)
  op : OpId;
  opBuffer : list Z;            (* Uint8ClampedArray(4) *)
  opOffset : Z }.

Definition init : State :=
  {| seenHeader := false;
     headerBuffer := repeat 0 (Z.to_nat QOI_HEADER_SIZE);
     headerBufferOffset := 0;
     width := None; height := None; channels := None; colorspace := None;
     pixels := None;
     pixelOffset := 0;
     lastPixel := [0; 0; 0; 255];
     indexValues := repeat 0 (Z.to_nat (INDEX_ARRAY_SIZE * 4));
     op := OP_HEAD_ID;
     opBuffer := repeat 0 4;
     opOffset := 0 |}.

(** Assignments to the variables that change while pixels are decoded. *)
Definition with_op (st : State) (o : OpId) (buf : list Z) (off : Z) : State :=
  {| seenHeader := seenHeader st;
     headerBuffer := headerBuffer st;
     headerBufferOffset := headerBufferOffset st;
     width := width st; height := height st;
     channels := channels st; colorspace := colorspace st;
     pixels := pixels st;
     pixelOffset := pixelOffset st;
     lastPixel := lastPixel st;
     indexValues := indexValues st;
     op := o; opBuffer := buf; opOffset := off |}.

Definition with_pixelOffset (st : State) (off : Z) : State :=
  {| seenHeader := seenHeader st;
     headerBuffer := headerBuffer st;
     headerBufferOffset := headerBufferOffset st;
     width := width st; height := height st;
     channels := channels st; colorspace := colorspace st;
     pixels := pixels st;
     pixelOffset := off;
     lastPixel := lastPixel st;
     indexValues := indexValues st;
     op := op st; opBuffer := opBuffer st; opOffset := opOffset st |}.

(** ** One iteration of the byte loop *)

(** The branch [if (!seenHeader)]: the byte is stored in the header buffer;
    the 14th byte triggers the parse and the allocation of [pixels]. *)
Definition header_byte (st : State) (byte : Z) : result State :=
  let headerBuffer' :=
    TA.put TA.to_uint8 (headerBuffer st) (headerBufferOffset st) byte in
  let headerBufferOffset' := headerBufferOffset st + 1 in
  if negb (headerBufferOffset' =? 14) then
    Ok {| seenHeader := false;
          headerBuffer := headerBuffer';
          headerBufferOffset := headerBufferOffset';
          width := width st; height := height st;
          channels := channels st; colorspace := colorspace st;
          pixels := pixels st;
          pixelOffset := pixelOffset st;
          lastPixel := lastPixel st;
          indexValues := indexValues st;
          op := op st; opBuffer := opBuffer st; opOffset := opOffset st |}
  else
    h <- parseQoiHeaderBytes headerBuffer' ;;
    pixels' <- TA.make (h_width h * h_height h * 4) ;;
    Ok {| seenHeader := true;
          headerBuffer := headerBuffer';
          headerBufferOffset := headerBufferOffset';
          width := Some (h_width h); height := Some (h_height h);
          channels := Some (h_channels h);
          colorspace := Some (h_colorspace h);
          pixels := Some pixels';
          pixelOffset := pixelOffset st;
          lastPixel := lastPixel st;
          indexValues := indexValues st;
          op := OP_NONE_ID; opBuffer := opBuffer st; opOffset := opOffset st |}.

(** The branch [if (pixelOffset >= pixels.length)]: the byte is checked
    against its place in the trailer and counted in [pixelOffset]. *)
Definition trailer_byte (st : State) (px : list Z) (byte : Z) : result State :=
  let trailerOffset := pixelOffset st - TA.length px in
  if ((trailerOffset <? 7) && negb (byte =? 0))
     || ((trailerOffset =? 7) && negb (byte =? 1))
     || (7 <? trailerOffset)
  then Err TrailerMismatch
  else Ok (with_pixelOffset st (pixelOffset st + 1)).

(** The branch [if (op === OP_NONE_ID)]: the opcode a tag byte starts. *)
Definition identify (byte : Z) : OpId :=
  let op0 := OP_NONE_ID in
  let op1 := if byte =? OP_RGB_BITS then OP_RGB_ID else op0 in
  let op2 := if byte =? OP_RGBA_BITS then OP_RGBA_ID else op1 in
  match op2 with
  | OP_NONE_ID =>
      let twoBitTag := JS.and byte 192 in
      let op3 := if twoBitTag =? OP_INDEX_BITS then OP_INDEX_ID else op2 in
      let op4 := if twoBitTag =? OP_DIFF_BITS then OP_DIFF_ID else op3 in
      let op5 := if twoBitTag =? OP_LUMA_BITS then OP_LUMA_ID else op4 in
      if twoBitTag =? OP_RUN_BITS then OP_RUN_ID else op5
  | _ => op2
  end.

(** [(lastPixel[0] * 3 + lastPixel[1] * 5 + lastPixel[2] * 7
     + lastPixel[3] * 11) % 64] *)
Definition color_hash (p : list Z) : Z :=
  JS.rem (TA.get p 0 * 3 + TA.get p 1 * 5 + TA.get p 2 * 7 + TA.get p 3 * 11)
         64.

(** The end of the loop body, reached by every completed opcode: the
    pixel in [lastPixel] is stored in the cache and the opcode state is
    reset. *)
Definition finish (st : State) (px : list Z) (pixelOffset' : Z)
    (lastPixel' : list Z) (opBuffer' : list Z) : result State :=
  let index := color_hash lastPixel' in
  indexValues' <- TA.set (indexValues st) lastPixel' (JS.shl index 2) ;;
  Ok {| seenHeader := seenHeader st;
        headerBuffer := headerBuffer st;
        headerBufferOffset := headerBufferOffset st;
        width := width st; height := height st;
        channels := channels st; colorspace := colorspace st;
        pixels := Some px;
        pixelOffset := pixelOffset';
        lastPixel := lastPixel';
        indexValues := indexValues';
        op := OP_NONE_ID;
        opBuffer := TA.fill TA.to_uint8_clamp opBuffer' 0;
        opOffset := 0 |}.

(** [lastPixel[c] = ((lastPixel[c] + diff) | 0x100) & 0xff] for the three
    colour channels, as DIFF and LUMA both do. *)
Definition add_channel (lastPixel : list Z) (c : Z) (diff : Z) : list Z :=
  TA.put TA.to_uint8_clamp lastPixel c
    (JS.and (JS.or (TA.get lastPixel c + diff) 256) 255).

Definition add_diffs (lastPixel : list Z) (diffRed diffGreen diffBlue : Z)
    : list Z :=
  let p0 := add_channel lastPixel 0 diffRed in
  let p1 := add_channel p0 1 diffGreen in
  add_channel p1 2 diffBlue.

(** The loop of RUN: [runLength] times, [pixels.set(lastPixel, pixelOffset);
    pixelOffset += 4].  [runLength] starts positive and counts down to 0. *)
Fixpoint run_loop (runLength : nat) (px lastPixel : list Z) (pixelOffset : Z)
    : result (list Z * Z) :=
  match runLength with
  | O => Ok (px, pixelOffset)
  | S n =>
      px' <- TA.set px lastPixel pixelOffset ;;
      run_loop n px' lastPixel (pixelOffset + 4)
  end.

(** The value of [op] after [if (op === OP_NONE_ID) { ... }]: the opcode
    the byte belongs to. *)
Definition current_opcode (st : State) (byte : Z) : OpId :=
  match op st with
  | OP_NONE_ID => identify byte
  | o => o
  end.

(** The opcode part of the loop body, for a byte that is neither header
    nor trailer.  [px] is the [pixels] array. *)
Definition opcode_byte (st : State) (px : list Z) (byte : Z) : result State :=
  let op' := current_opcode st byte in
  match op' with
  | OP_RGB_ID =>
      let opBuffer1 :=
        if 0 <? opOffset st
        then TA.put TA.to_uint8_clamp (opBuffer st) (opOffset st - 1) byte
        else opBuffer st in
      let opOffset1 := opOffset st + 1 in
      if opOffset1 <=? 3 then Ok (with_op st op' opBuffer1 opOffset1)
      else
        let opBuffer2 :=
          TA.put TA.to_uint8_clamp opBuffer1 3 (TA.get (lastPixel st) 3) in
        lastPixel' <- TA.set (lastPixel st) opBuffer2 0 ;;
        px' <- TA.set px lastPixel' (pixelOffset st) ;;
        finish st px' (pixelOffset st + 4) lastPixel' opBuffer2
  | OP_RGBA_ID =>
      let opBuffer1 :=
        if 0 <? opOffset st
        then TA.put TA.to_uint8_clamp (opBuffer st) (opOffset st - 1) byte
        else opBuffer st in
      let opOffset1 := opOffset st + 1 in
      if opOffset1 <=? 4 then Ok (with_op st op' opBuffer1 opOffset1)
      else
        lastPixel' <- TA.set (lastPixel st) opBuffer1 0 ;;
        px' <- TA.set px lastPixel' (pixelOffset st) ;;
        finish st px' (pixelOffset st + 4) lastPixel' opBuffer1
  | OP_INDEX_ID =>
      let index := JS.shl (JS.and byte 63) 2 in
      lastPixel' <-
        TA.set (lastPixel st) (TA.slice (indexValues st) index (index + 4)) 0 ;;
      px' <- TA.set px lastPixel' (pixelOffset st) ;;
      finish st px' (pixelOffset st + 4) lastPixel' (opBuffer st)
  | OP_DIFF_ID =>
      let diffRed := -2 + JS.sar (JS.and byte 48) 4 in
      let diffGreen := -2 + JS.sar (JS.and byte 12) 2 in
      let diffBlue := -2 + JS.and byte 3 in
      let lastPixel' := add_diffs (lastPixel st) diffRed diffGreen diffBlue in
      px' <- TA.set px lastPixel' (pixelOffset st) ;;
      finish st px' (pixelOffset st + 4) lastPixel' (opBuffer st)
  | OP_LUMA_ID =>
      if opOffset st =? 0 then
        Ok (with_op st op'
              (TA.put TA.to_uint8_clamp (opBuffer st) 0 (JS.and byte 63))
              (opOffset st + 1))
      else
        let diffGreen := -32 + TA.get (opBuffer st) 0 in
        let diffRed := diffGreen + (-8 + JS.sar (JS.and byte 240) 4) in
        let diffBlue := diffGreen + (-8 + JS.and byte 15) in
        let lastPixel' := add_diffs (lastPixel st) diffRed diffGreen diffBlue in
        px' <- TA.set px lastPixel' (pixelOffset st) ;;
        finish st px' (pixelOffset st + 4) lastPixel' (opBuffer st)
  | OP_RUN_ID =>
      r <- run_loop (Z.to_nat (JS.and byte 63 + 1)) px (lastPixel st)
             (pixelOffset st) ;;
      finish st (fst r) (snd r) (lastPixel st) (opBuffer st)
  | OP_NONE_ID | OP_HEAD_ID =>
      (* no opcode branch fires; the common end of the body runs *)
      finish st px (pixelOffset st) (lastPixel st) (opBuffer st)
  end.

(** The body of [for (const byte of bytes)]. *)
Definition step (st : State) (b : byte) : result State :=
  let byte := u8 b in
  if negb (seenHeader st) then header_byte st byte
  else
    match pixels st with
    | None => Err TypeError     (* pixels.length of undefined *)
    | Some px =>
        if TA.length px <=? pixelOffset st then trailer_byte st px byte
        else opcode_byte st px byte
    end.

(** ** The two loops and the result *)

(** [for (const byte of bytes)] over one chunk. *)
Fixpoint run_bytes (st : State) (bytes : list byte) : result State :=
  match bytes with
  | [] => Ok st
  | b :: rest => st' <- step st b ;; run_bytes st' rest
  end.

(** [for (result = await reader.read(); !result.done; ...)]: the chunks the
    reader delivers before it reports [done]. *)
Fixpoint run_chunks (st : State) (chunks : list (list byte)) : result State :=
  match chunks with
  | [] => Ok st
  | bytes :: rest => st' <- run_bytes st bytes ;; run_chunks st' rest
  end.

(** The returned object [{ width, height, pixels, log }], without the log. *)
Record Output : Type := mkOutput {
  out_width : option Z;
  out_height : option Z;
  out_pixels : option (list Z) }.

Definition getQoiPixelData (stream : list (list byte)) : result Output :=
  st <- run_chunks init stream ;;
  Ok (mkOutput (width st) (height st) (pixels st)).

(** ** Inputs for examples *)

Definition bytes_of (l : list Z) : list byte := map byte_of l.

(** * Vocabulary of the statements *)

(** What [target.set(source, a)] leaves in [target] when it succeeds. *)
Definition splice (t s : list Z) (a : nat) : list Z :=
  firstn a t ++ s ++ skipn (a + List.length s) t.

(** The states the decoder can be in: those some sequence of bytes leads
    to from the initial state without an exception. *)
Definition reachable (st : State) : Prop :=
  exists bytes, run_bytes init bytes = Ok st.

Definition byte_values (l : list Z) : Prop :=
  Forall (fun x => 0 <= x <= 255) l.

(** The four bytes of cache slot [i], as [indexValues.slice] reads them. *)
Definition slot (cache : list Z) (i : Z) : list Z :=
  TA.slice cache (4 * i) (4 * i + 4).

(** Which opcode can be in progress, and how far. *)
Definition op_inv (st : State) : Prop :=
  match op st with
  | OP_HEAD_ID => seenHeader st = false /\ opOffset st = 0
  | OP_NONE_ID => seenHeader st = true /\ opOffset st = 0
  | OP_RGB_ID => seenHeader st = true /\ 1 <= opOffset st <= 3
  | OP_RGBA_ID => seenHeader st = true /\ 1 <= opOffset st <= 4
  | OP_LUMA_ID => seenHeader st = true /\ opOffset st = 1
  | OP_INDEX_ID | OP_DIFF_ID | OP_RUN_ID => False
  end.

(** Before the header is complete nothing is defined; afterwards [pixels]
    has [width * height * 4] entries, those from [pixelOffset] on still 0,
    and [pixelOffset] counts whole pixels until the buffer is full. *)
Definition header_inv (st : State) : Prop :=
  if seenHeader st then
    exists w h px,
      width st = Some w /\ height st = Some h /\ pixels st = Some px /\
      TA.length px = w * h * 4 /\
      pixelOffset st <= TA.length px + 8 /\
      (pixelOffset st <= TA.length px -> pixelOffset st mod 4 = 0) /\
      (forall i, pixelOffset st <= Z.of_nat i -> nth i px 0 = 0)
  else
    width st = None /\ height st = None /\ pixels st = None /\
    pixelOffset st = 0 /\ 0 <= headerBufferOffset st < 14.

Record wf (st : State) : Prop := mk_wf {
  wf_header_len : List.length (headerBuffer st) = 14%nat;
  wf_last_len : List.length (lastPixel st) = 4%nat;
  wf_last_val : byte_values (lastPixel st);
  wf_index_len : List.length (indexValues st) = 256%nat;
  wf_index_val : byte_values (indexValues st);
  wf_buf_len : List.length (opBuffer st) = 4%nat;
  wf_buf_val : byte_values (opBuffer st);
  wf_offset : 0 <= pixelOffset st;
  wf_cache : forall i, 0 <= i < 64 ->
      slot (indexValues st) i = [0; 0; 0; 0]
      \/ color_hash (slot (indexValues st) i) = i;
  wf_op : op_inv st;
  wf_head : header_inv st }.

(** The state after an opcode has emitted [n] copies of the pixel [p]:
    the copies are in [pixels] from the old [pixelOffset] on, [p] is the
    previous pixel and is stored in its cache slot, and the opcode state
    is reset. *)
Definition emitted (st : State) (px : list Z) (n : nat) (p : list Z) : State :=
  {| seenHeader := seenHeader st;
     headerBuffer := headerBuffer st;
     headerBufferOffset := headerBufferOffset st;
     width := width st; height := height st;
     channels := channels st; colorspace := colorspace st;
     pixels :=
       Some (splice px (concat (repeat p n)) (Z.to_nat (pixelOffset st)));
     pixelOffset := pixelOffset st + 4 * Z.of_nat n;
     lastPixel := p;
     indexValues := splice (indexValues st) p (Z.to_nat (4 * color_hash p));
     op := OP_NONE_ID;
     opBuffer := repeat 0 4;
     opOffset := 0 |}.

(** The state the decoder is in after the given bytes (the initial state
    when they make it throw). *)
Definition state_after (bytes : list Z) : State :=
  match run_bytes init (bytes_of bytes) with
  | Ok st => st
  | Err _ => init
  end.

(** The alpha channel of the previous-pixel register. *)
Definition alpha (st : State) : Z := TA.get (lastPixel st) 3.

(** The state while the header is being read: the bytes read so far are
    at the front of the header buffer, everything else is as at the
    start. *)
Definition reading_header (bs : list byte) : State :=
  {| seenHeader := false;
     headerBuffer := map u8 bs ++ repeat 0 (14 - List.length bs);
     headerBufferOffset := Z.of_nat (List.length bs);
     width := None; height := None; channels := None; colorspace := None;
     pixels := None;
     pixelOffset := 0;
     lastPixel := [0; 0; 0; 255];
     indexValues := repeat 0 256;
     op := OP_HEAD_ID;
     opBuffer := repeat 0 4;
     opOffset := 0 |}.

(** The state right after the 14th header byte: the header fields are
    set, [pixels] is allocated, no opcode byte is read yet. *)
Definition after_header (hb : list byte) (h : Header) (px : list Z) : State :=
  {| seenHeader := true;
     headerBuffer := map u8 hb;
     headerBufferOffset := 14;
     width := Some (h_width h); height := Some (h_height h);
     channels := Some (h_channels h); colorspace := Some (h_colorspace h);
     pixels := Some px;
     pixelOffset := 0;
     lastPixel := [0; 0; 0; 255];
     indexValues := repeat 0 256;
     op := OP_NONE_ID;
     opBuffer := repeat 0 4;
     opOffset := 0 |}.

(** A state without what only the header parse wrote and nothing reads
    afterwards: the header buffer, the channels and the colorspace. *)
Definition forget_modes (st : State) : State :=
  {| seenHeader := seenHeader st;
     headerBuffer := [];
     headerBufferOffset := headerBufferOffset st;
     width := width st; height := height st;
     channels := None; colorspace := None;
     pixels := pixels st;
     pixelOffset := pixelOffset st;
     lastPixel := lastPixel st;
     indexValues := indexValues st;
     op := op st; opBuffer := opBuffer st; opOffset := opOffset st |}.

Definition map_result {A B : Type} (f : A -> B) (r : result A) : result B :=
  match r with
  | Ok a => Ok (f a)
  | Err e => Err e
  end.

(** The eight bytes of the end marker. *)
Definition trailer_bytes : list Z := [0; 0; 0; 0; 0; 0; 0; 1].

(** [l] is a beginning of [m]. *)
Fixpoint is_prefix (l m : list Z) : bool :=
  match l, m with
  | [], _ => true
  | x :: l', y :: m' => (x =? y) && is_prefix l' m'
  | _ :: _, [] => false
  end.

(** * Properties *)

(** ** Bytes and the integer operators *)

Lemma u8_range (b : byte) : 0 <= u8 b <= 255.
Proof. destruct b; vm_compute; split; discriminate. Qed.

Lemma u8_byte_of (z : Z) : 0 <= z <= 255 -> u8 (byte_of z) = z.
Proof.
  intros H. unfold u8, byte_of.
  destruct (Byte.of_N (Z.to_N z)) as [b|] eqn:E.
  - apply Byte.to_of_N in E. rewrite E. lia.
  - apply Byte.of_N_None_iff in E. lia.
Qed.

Lemma to_int32_small (z : Z) : - 2 ^ 31 <= z < 2 ^ 31 -> JS.to_int32 z = z.
Proof.
  intros H. unfold JS.to_int32.
  destruct (Z.lt_ge_cases z 0) as [N|N].
  - assert (E : z mod 2 ^ 32 = z + 2 ^ 32).
    { symmetry. apply (Z.mod_unique z (2 ^ 32) (-1)); lia. }
    rewrite E. destruct (Z.leb_spec (2 ^ 31) (z + 2 ^ 32)); lia.
  - rewrite Z.mod_small by lia.
    destruct (Z.leb_spec (2 ^ 31) z); lia.
Qed.

Lemma to_int32_mod256 (z : Z) : JS.to_int32 z mod 256 = z mod 256.
Proof.
  unfold JS.to_int32.
  assert (E : (z mod 2 ^ 32) mod 256 = z mod 256).
  { apply Z.mod_mod_divide. exists (2 ^ 24). reflexivity. }
  destruct (2 ^ 31 <=? z mod 2 ^ 32); [|exact E].
  rewrite <- E.
  replace (z mod 2 ^ 32 - 2 ^ 32)
    with (z mod 2 ^ 32 + (- 2 ^ 24) * 256) by ring.
  apply Z.mod_add; lia.
Qed.

(** [(x | 0x100) & 0xff] is [x] modulo 256, for every integer [x]. *)
Lemma or_and_wrap (x : Z) : JS.and (JS.or x 256) 255 = x mod 256.
Proof.
  unfold JS.and, JS.or.
  rewrite (to_int32_small 255), (to_int32_small 256) by lia.
  rewrite <- (to_int32_mod256 x).
  set (y := JS.to_int32 x).
  transitivity (Z.lor y 256 mod 256).
  - rewrite <- (to_int32_mod256 (Z.lor y 256)).
    apply (Z.land_ones _ 8). lia.
  - assert (L : forall a, a mod 256 = Z.land a (Z.ones 8)).
    { intros a. symmetry. apply (Z.land_ones a 8). lia. }
    rewrite !L, Z.land_lor_distr_l.
    change (Z.land 256 (Z.ones 8)) with 0. apply Z.lor_0_r.
Qed.

(** The bit fields of a byte, as arithmetic. *)
Lemma and_63 (b : byte) : JS.and (u8 b) 63 = u8 b mod 64.
Proof. destruct b; reflexivity. Qed.

Lemma field_54 (b : byte) : JS.sar (JS.and (u8 b) 48) 4 = (u8 b / 16) mod 4.
Proof. destruct b; reflexivity. Qed.

Lemma field_32 (b : byte) : JS.sar (JS.and (u8 b) 12) 2 = (u8 b / 4) mod 4.
Proof. destruct b; reflexivity. Qed.

Lemma field_10 (b : byte) : JS.and (u8 b) 3 = u8 b mod 4.
Proof. destruct b; reflexivity. Qed.

Lemma field_hi (b : byte) : JS.sar (JS.and (u8 b) 240) 4 = u8 b / 16.
Proof. destruct b; reflexivity. Qed.

Lemma field_lo (b : byte) : JS.and (u8 b) 15 = u8 b mod 16.
Proof. destruct b; reflexivity. Qed.

Lemma index_shl (b : byte) : JS.shl (JS.and (u8 b) 63) 2 = 4 * (u8 b mod 64).
Proof. destruct b; reflexivity. Qed.

(** The opcode a tag byte starts, by the value of the byte. *)
Lemma identify_spec (b : byte) :
  identify (u8 b) =
    if u8 b =? 254 then OP_RGB_ID
    else if u8 b =? 255 then OP_RGBA_ID
    else if u8 b <? 64 then OP_INDEX_ID
    else if u8 b <? 128 then OP_DIFF_ID
    else if u8 b <? 192 then OP_LUMA_ID
    else OP_RUN_ID.
Proof. destruct b; reflexivity. Qed.

(** ** Typed arrays as lists *)

Lemma nth_firstn_lt (l : list Z) (n i : nat) (d : Z) :
  (i < n)%nat -> nth i (firstn n l) d = nth i l d.
Proof.
  intros H. rewrite nth_firstn.
  destruct (Nat.ltb_spec i n); [reflexivity|lia].
Qed.

Lemma Forall_firstn (P : Z -> Prop) (n : nat) (l : list Z) :
  Forall P l -> Forall P (firstn n l).
Proof.
  intros H. rewrite <- (firstn_skipn n l) in H.
  apply Forall_app in H. tauto.
Qed.

Lemma Forall_skipn (P : Z -> Prop) (n : nat) (l : list Z) :
  Forall P l -> Forall P (skipn n l).
Proof.
  intros H. rewrite <- (firstn_skipn n l) in H.
  apply Forall_app in H. tauto.
Qed.

Lemma set_ok (t s : list Z) (off : Z) :
  0 <= off -> TA.length s + off <= TA.length t ->
  TA.set t s off = Ok (splice t s (Z.to_nat off)).
Proof.
  intros H0 H1. unfold TA.set, splice.
  destruct (Z.ltb_spec off 0); [lia|].
  destruct (Z.ltb_spec (TA.length t) (TA.length s + off)); [lia|].
  cbn [orb]. do 4 f_equal. unfold TA.length. lia.
Qed.

Lemma set_err (t s : list Z) (off : Z) :
  TA.length t < TA.length s + off -> TA.set t s off = Err RangeError.
Proof.
  intros H. unfold TA.set.
  destruct (Z.ltb_spec (TA.length t) (TA.length s + off)); [|lia].
  now rewrite orb_true_r.
Qed.

Lemma splice_length (t s : list Z) (a : nat) :
  (a + List.length s <= List.length t)%nat ->
  List.length (splice t s a) = List.length t.
Proof.
  intros H. unfold splice.
  rewrite !length_app, length_firstn, length_skipn. lia.
Qed.

Lemma splice_nth (t s : list Z) (a i : nat) (d : Z) :
  (a + List.length s <= List.length t)%nat ->
  nth i (splice t s a) d =
    if (i <? a)%nat then nth i t d
    else if (i <? a + List.length s)%nat then nth (i - a) s d
    else nth i t d.
Proof.
  intros H. unfold splice.
  assert (La : List.length (firstn a t) = a) by (rewrite length_firstn; lia).
  destruct (Nat.ltb_spec i a) as [I|I].
  - rewrite app_nth1 by lia. apply nth_firstn_lt. exact I.
  - rewrite app_nth2 by lia. rewrite La.
    destruct (Nat.ltb_spec i (a + List.length s)) as [J|J].
    + rewrite app_nth1 by lia. reflexivity.
    + rewrite app_nth2 by lia. rewrite nth_skipn. f_equal. lia.
Qed.

Lemma splice_Forall (P : Z -> Prop) (t s : list Z) (a : nat) :
  Forall P t -> Forall P s -> Forall P (splice t s a).
Proof.
  intros Ht Hs. unfold splice.
  apply Forall_app; split; [now apply Forall_firstn|].
  apply Forall_app; split; [exact Hs|now apply Forall_skipn].
Qed.

Lemma splice_whole (t s : list Z) :
  List.length s = List.length t -> splice t s 0 = s.
Proof.
  intros H. unfold splice. cbn [firstn app Nat.add].
  rewrite H, skipn_all. apply app_nil_r.
Qed.

Lemma slice_nth (a : list Z) (start n j : nat) (d : Z) :
  (j < n)%nat -> nth j (firstn n (skipn start a)) d = nth (start + j) a d.
Proof. intros H. rewrite nth_firstn_lt by exact H. apply nth_skipn. Qed.

(** Writing back what was read from the same place changes nothing. *)
Lemma splice_slice_same (t : list Z) (a n : nat) :
  (a + n <= List.length t)%nat ->
  splice t (firstn n (skipn a t)) a = t.
Proof.
  intros H.
  assert (L : List.length (firstn n (skipn a t)) = n).
  { rewrite length_firstn, length_skipn. lia. }
  apply (nth_ext _ _ 0 0).
  - rewrite splice_length; lia.
  - intros i _. rewrite splice_nth by lia. rewrite L.
    destruct (Nat.ltb_spec i a); [reflexivity|].
    destruct (Nat.ltb_spec i (a + n)); [|reflexivity].
    rewrite slice_nth by lia. f_equal. lia.
Qed.

(** A slice of a spliced array: the source when it is the spliced place,
    the old slice when the two places do not overlap. *)
Lemma slice_splice_same (t s : list Z) (a : nat) :
  (a + List.length s <= List.length t)%nat ->
  firstn (List.length s) (skipn a (splice t s a)) = s.
Proof.
  intros H.
  apply (nth_ext _ _ 0 0).
  - rewrite length_firstn, length_skipn, splice_length; lia.
  - intros i Hi.
    rewrite length_firstn, length_skipn, splice_length in Hi by lia.
    rewrite slice_nth by lia. rewrite splice_nth by lia.
    destruct (Nat.ltb_spec (a + i) a); [lia|].
    destruct (Nat.ltb_spec (a + i) (a + List.length s)); [|lia].
    f_equal. lia.
Qed.

Lemma slice_splice_other (t s : list Z) (a c n : nat) :
  (a + List.length s <= List.length t)%nat ->
  (c + n <= a \/ a + List.length s <= c)%nat ->
  firstn n (skipn c (splice t s a)) = firstn n (skipn c t).
Proof.
  intros H D.
  apply (nth_ext _ _ 0 0).
  - rewrite !length_firstn, !length_skipn, splice_length; lia.
  - intros i Hi.
    rewrite length_firstn in Hi.
    rewrite !slice_nth by lia. rewrite splice_nth by lia.
    destruct (Nat.ltb_spec (c + i) a); [reflexivity|].
    destruct (Nat.ltb_spec (c + i) (a + List.length s)); [lia|reflexivity].
Qed.

Lemma put_length (conv : Z -> Z) (a : list Z) (i v : Z) :
  List.length (TA.put conv a i v) = List.length a.
Proof.
  unfold TA.put, TA.length.
  destruct (Z.leb_spec 0 i); cbn [andb]; [|reflexivity].
  destruct (Z.ltb_spec i (Z.of_nat (List.length a))); [|reflexivity].
  rewrite length_app. cbn [List.length].
  rewrite length_firstn, length_skipn. lia.
Qed.

Lemma put_Forall (P : Z -> Prop) (conv : Z -> Z) (a : list Z) (i v : Z) :
  (forall x, P (conv x)) -> Forall P a -> Forall P (TA.put conv a i v).
Proof.
  intros Hc Ha. unfold TA.put.
  destruct ((0 <=? i) && (i <? TA.length a)); [|exact Ha].
  apply Forall_app; split; [now apply Forall_firstn|].
  constructor; [apply Hc|now apply Forall_skipn].
Qed.

Lemma clamp_range (x : Z) : 0 <= TA.to_uint8_clamp x <= 255.
Proof.
  unfold TA.to_uint8_clamp.
  destruct (Z.ltb_spec x 0); [lia|]. destruct (Z.ltb_spec 255 x); lia.
Qed.

Lemma clamp_id (x : Z) : 0 <= x <= 255 -> TA.to_uint8_clamp x = x.
Proof.
  intros H. unfold TA.to_uint8_clamp.
  destruct (Z.ltb_spec x 0); [lia|]. destruct (Z.ltb_spec 255 x); lia.
Qed.

(** ** Reachable states and their invariant *)

Lemma run_bytes_app (st : State) (bs1 bs2 : list byte) :
  run_bytes st (bs1 ++ bs2) = (st' <- run_bytes st bs1 ;; run_bytes st' bs2).
Proof.
  revert st. induction bs1 as [|b bs1 IH]; intros st; cbn [app run_bytes bind].
  - reflexivity.
  - destruct (step st b) as [st1|e]; cbn [bind]; [apply IH|reflexivity].
Qed.

Lemma run_bytes_snoc (st : State) (bs : list byte) (b : byte) :
  run_bytes st (bs ++ [b]) = (st' <- run_bytes st bs ;; step st' b).
Proof.
  rewrite run_bytes_app. destruct (run_bytes st bs) as [st1|e]; cbn [bind].
  - cbn [run_bytes]. destruct (step st1 b); reflexivity.
  - reflexivity.
Qed.

(** Induction over the runs of the byte loop from the initial state. *)
Lemma run_bytes_ind (P : list byte -> State -> Prop) :
  P [] init ->
  (forall bs st b st',
      run_bytes init bs = Ok st -> P bs st -> step st b = Ok st' ->
      P (bs ++ [b]) st') ->
  forall bs st, run_bytes init bs = Ok st -> P bs st.
Proof.
  intros H0 HS bs. induction bs as [|b bs IH] using rev_ind; intros st R.
  - cbn in R. injection R as <-. exact H0.
  - rewrite run_bytes_snoc in R.
    destruct (run_bytes init bs) as [st1|e] eqn:E; cbn [bind] in R.
    + exact (HS bs st1 b st E (IH st1 eq_refl) R).
    + discriminate.
Qed.

Lemma reachable_init : reachable init.
Proof. exists []. reflexivity. Qed.

Lemma reachable_step (st st' : State) (b : byte) :
  reachable st -> step st b = Ok st' -> reachable st'.
Proof.
  intros [bs R] S. exists (bs ++ [b]).
  rewrite run_bytes_snoc, R. exact S.
Qed.

Lemma byte_values_nth (l : list Z) (i : nat) :
  byte_values l -> 0 <= nth i l 0 <= 255.
Proof.
  intros H. destruct (Nat.lt_ge_cases i (List.length l)) as [L|L].
  - exact (proj1 (Forall_nth _ l) H i 0 L).
  - rewrite nth_overflow by exact L. lia.
Qed.

Lemma color_hash_range (p : list Z) :
  byte_values p -> 0 <= color_hash p < 64.
Proof.
  intros H. unfold color_hash, JS.rem, TA.get.
  pose proof (byte_values_nth p (Z.to_nat 0) H).
  pose proof (byte_values_nth p (Z.to_nat 1) H).
  pose proof (byte_values_nth p (Z.to_nat 2) H).
  pose proof (byte_values_nth p (Z.to_nat 3) H).
  apply Z.rem_bound_pos; lia.
Qed.

Lemma shl_2 (x : Z) : 0 <= x < 64 -> JS.shl x 2 = 4 * x.
Proof.
  intros H. unfold JS.shl.
  rewrite (to_int32_small x) by lia.
  rewrite Z.shiftl_mul_pow2 by lia.
  rewrite to_int32_small; lia.
Qed.

Lemma slot_eq (cache : list Z) (i : Z) :
  slot cache i = firstn 4 (skipn (Z.to_nat (4 * i)) cache).
Proof.
  unfold slot, TA.slice. do 2 f_equal. lia.
Qed.

(** The cache after [indexValues.set(p, h << 2)], slot by slot. *)
Lemma slot_splice (cache p : list Z) (h i : Z) :
  List.length cache = 256%nat -> List.length p = 4%nat ->
  0 <= h < 64 -> 0 <= i < 64 ->
  slot (splice cache p (Z.to_nat (4 * h))) i =
    if i =? h then p else slot cache i.
Proof.
  intros Lc Lp Hh Hi. rewrite !slot_eq.
  destruct (Z.eqb_spec i h) as [->|N].
  - change 4%nat with (List.length [0; 0; 0; 0]). rewrite <- Lp at 1.
    apply slice_splice_same. lia.
  - apply slice_splice_other; lia.
Qed.

(** Two adjacent writes are one write of the concatenation. *)
Lemma splice_adjacent (t s1 s2 : list Z) (a : nat) :
  (a + List.length s1 + List.length s2 <= List.length t)%nat ->
  splice (splice t s1 a) s2 (a + List.length s1) = splice t (s1 ++ s2) a.
Proof.
  intros H.
  assert (L1 : List.length (splice t s1 a) = List.length t)
    by (apply splice_length; lia).
  apply (nth_ext _ _ 0 0).
  - rewrite !splice_length; rewrite ?length_app; lia.
  - intros i _.
    rewrite (splice_nth (splice t s1 a)) by lia.
    rewrite (splice_nth t (s1 ++ s2)) by (rewrite length_app; lia).
    rewrite (splice_nth t s1) by lia.
    rewrite length_app.
    destruct (Nat.ltb_spec i a) as [I1|I1].
    + destruct (Nat.ltb_spec i (a + List.length s1)); [reflexivity|lia].
    + destruct (Nat.ltb_spec i (a + List.length s1)) as [I2|I2].
      * destruct (Nat.ltb_spec i (a + (List.length s1 + List.length s2)));
          [|lia].
        now rewrite app_nth1 by lia.
      * rewrite <- Nat.add_assoc.
        destruct (Nat.ltb_spec i (a + (List.length s1 + List.length s2)));
          [|reflexivity].
        rewrite app_nth2 by lia. f_equal. lia.
Qed.

Lemma length_concat_repeat (p : list Z) (n : nat) :
  List.length (concat (repeat p n)) = (n * List.length p)%nat.
Proof.
  induction n as [|n IH]; cbn [repeat concat]; [reflexivity|].
  rewrite length_app, IH. lia.
Qed.

(** The RUN loop writes [n] copies of the pixel, or fails when they do
    not fit. *)
Lemma run_loop_ok (n : nat) (px p : list Z) (off : Z) :
  List.length p = 4%nat -> 0 <= off ->
  off + 4 * Z.of_nat n <= TA.length px ->
  run_loop n px p off =
    Ok (splice px (concat (repeat p n)) (Z.to_nat off), off + 4 * Z.of_nat n).
Proof.
  intros Lp. revert px off.
  induction n as [|n IH]; intros px off H0 H; cbn [run_loop repeat concat].
  - unfold splice. cbn [app List.length]. rewrite Nat.add_0_r, firstn_skipn.
    do 2 f_equal. lia.
  - unfold TA.length in H.
    rewrite set_ok by (unfold TA.length; lia). cbn [bind].
    rewrite IH.
    + f_equal. f_equal; [|lia].
      replace (Z.to_nat (off + 4)) with (Z.to_nat off + List.length p)%nat
        by lia.
      apply splice_adjacent. rewrite length_concat_repeat. lia.
    + lia.
    + unfold TA.length. rewrite splice_length; lia.
Qed.

Lemma run_loop_err (n : nat) (px p : list Z) (off : Z) :
  List.length p = 4%nat -> 0 <= off <= TA.length px ->
  TA.length px < off + 4 * Z.of_nat n ->
  run_loop n px p off = Err RangeError.
Proof.
  intros Lp. revert px off.
  induction n as [|n IH]; intros px off H0 H; cbn [run_loop].
  - lia.
  - destruct (Z.le_gt_cases (off + 4) (TA.length px)) as [F|F].
    + unfold TA.length in F.
      rewrite set_ok by (unfold TA.length; lia). cbn [bind].
      apply IH; unfold TA.length in *; rewrite splice_length; lia.
    + rewrite set_err by (unfold TA.length in *; lia). reflexivity.
Qed.

(** ** The end of the loop body *)

Lemma finish_ok (st : State) (px : list Z) (off : Z) (p buf : list Z) :
  List.length (indexValues st) = 256%nat ->
  List.length p = 4%nat -> byte_values p ->
  finish st px off p buf =
    Ok {| seenHeader := seenHeader st;
          headerBuffer := headerBuffer st;
          headerBufferOffset := headerBufferOffset st;
          width := width st; height := height st;
          channels := channels st; colorspace := colorspace st;
          pixels := Some px;
          pixelOffset := off;
          lastPixel := p;
          indexValues :=
            splice (indexValues st) p (Z.to_nat (4 * color_hash p));
          op := OP_NONE_ID;
          opBuffer := TA.fill TA.to_uint8_clamp buf 0;
          opOffset := 0 |}.
Proof.
  intros Li Lp Vp. unfold finish.
  pose proof (color_hash_range p Vp) as Hh.
  rewrite shl_2 by exact Hh.
  rewrite set_ok by (unfold TA.length; lia).
  reflexivity.
Qed.

Lemma fill_zero (buf : list Z) :
  TA.fill TA.to_uint8_clamp buf 0 = repeat 0 (List.length buf).
Proof.
  unfold TA.fill. induction buf as [|x buf IH]; cbn [map List.length repeat].
  - reflexivity.
  - f_equal. exact IH.
Qed.

Lemma byte_values_repeat0 (n : nat) : byte_values (repeat 0 n).
Proof. apply Forall_forall. intros x H. apply repeat_spec in H. lia. Qed.

Lemma wf_seen (st : State) :
  wf st -> seenHeader st = true ->
  exists w h px,
    width st = Some w /\ height st = Some h /\ pixels st = Some px /\
    TA.length px = w * h * 4 /\
    pixelOffset st <= TA.length px + 8 /\
    (pixelOffset st <= TA.length px -> pixelOffset st mod 4 = 0) /\
    (forall i, pixelOffset st <= Z.of_nat i -> nth i px 0 = 0).
Proof.
  intros W S. pose proof (wf_head st W) as H.
  unfold header_inv in H. rewrite S in H. exact H.
Qed.

Lemma wf_unseen (st : State) :
  wf st -> seenHeader st = false ->
  width st = None /\ height st = None /\ pixels st = None /\
  pixelOffset st = 0 /\ 0 <= headerBufferOffset st < 14 /\
  op st = OP_HEAD_ID /\ opOffset st = 0.
Proof.
  intros W S. pose proof (wf_head st W) as H. pose proof (wf_op st W) as O.
  unfold header_inv in H. rewrite S in H. unfold op_inv in O.
  destruct (op st); try (destruct O; congruence); tauto.
Qed.

(** A single emission, as the opcode branches write it. *)
Lemma emit_ok (st : State) (px p buf : list Z) :
  wf st -> pixelOffset st + 4 <= TA.length px ->
  List.length p = 4%nat -> byte_values p -> List.length buf = 4%nat ->
  (px' <- TA.set px p (pixelOffset st) ;;
   finish st px' (pixelOffset st + 4) p buf) = Ok (emitted st px 1 p).
Proof.
  intros W F Lp Vp Lb.
  pose proof (wf_offset st W).
  rewrite set_ok by (unfold TA.length in *; lia). cbn [bind].
  rewrite finish_ok by (try apply W; assumption).
  unfold emitted. cbn [repeat concat]. rewrite app_nil_r, fill_zero, Lb.
  reflexivity.
Qed.

Lemma emitted_wf (st : State) (px : list Z) (n : nat) (p : list Z) :
  wf st -> seenHeader st = true -> pixels st = Some px ->
  pixelOffset st + 4 * Z.of_nat n <= TA.length px ->
  List.length p = 4%nat -> byte_values p ->
  wf (emitted st px n p).
Proof.
  intros W S P F Lp Vp.
  destruct (wf_seen st W S) as (w & h & px0 & Hw & Hh & Hp & Hl & Hb & Ha & Hz).
  rewrite P in Hp. injection Hp as <-.
  pose proof (wf_offset st W) as O.
  pose proof (color_hash_range p Vp) as Hc.
  assert (Lc : List.length (concat (repeat p n)) = (n * 4)%nat)
    by (rewrite length_concat_repeat, Lp; reflexivity).
  assert (Lx : List.length
                 (splice px (concat (repeat p n)) (Z.to_nat (pixelOffset st)))
               = List.length px).
  { apply splice_length. unfold TA.length in F. lia. }
  constructor; cbn [emitted headerBuffer lastPixel indexValues opBuffer
                    pixelOffset op opOffset seenHeader].
  - apply W.
  - exact Lp.
  - exact Vp.
  - rewrite splice_length; rewrite (wf_index_len st W); lia.
  - apply splice_Forall; [apply W|exact Vp].
  - reflexivity.
  - apply byte_values_repeat0.
  - lia.
  - intros i Hi.
    rewrite slot_splice by (try apply W; assumption).
    destruct (Z.eqb_spec i (color_hash p)) as [->|N].
    + right. reflexivity.
    + apply (wf_cache st W). exact Hi.
  - unfold op_inv. cbn. split; [exact S|reflexivity].
  - unfold header_inv.
    cbn [emitted seenHeader width height pixels pixelOffset]. rewrite S.
    exists w, h, (splice px (concat (repeat p n)) (Z.to_nat (pixelOffset st))).
    repeat split; try assumption.
    + unfold TA.length in *. rewrite Lx. exact Hl.
    + unfold TA.length in *. rewrite Lx. lia.
    + intros _. assert (pixelOffset st mod 4 = 0) by (apply Ha; lia).
      rewrite (Z.mul_comm 4), Z.mod_add by lia. assumption.
    + intros i Hi. rewrite splice_nth by (unfold TA.length in F; lia).
      destruct (Nat.ltb_spec i (Z.to_nat (pixelOffset st))); [lia|].
      destruct (Nat.ltb_spec i (Z.to_nat (pixelOffset st)
                                + List.length (concat (repeat p n)))); [lia|].
      apply Hz. lia.
Qed.

(** ** The opcode branches on well-formed states *)

Lemma set_whole (t s : list Z) :
  List.length s = List.length t -> TA.set t s 0 = Ok s.
Proof.
  intros H. rewrite set_ok by (unfold TA.length; lia).
  change (Z.to_nat 0) with 0%nat. now rewrite splice_whole.
Qed.

Lemma put_clamp_values (a : list Z) (i v : Z) :
  byte_values a -> byte_values (TA.put TA.to_uint8_clamp a i v).
Proof. apply put_Forall. exact clamp_range. Qed.

Lemma add_diffs_length (p : list Z) (dr dg db : Z) :
  List.length (add_diffs p dr dg db) = List.length p.
Proof. unfold add_diffs, add_channel. now rewrite !put_length. Qed.

Lemma add_diffs_values (p : list Z) (dr dg db : Z) :
  byte_values p -> byte_values (add_diffs p dr dg db).
Proof.
  intros H. unfold add_diffs, add_channel.
  now repeat apply put_clamp_values.
Qed.

(** The three channel updates on a four-byte pixel: each colour channel
    moves by its difference modulo 256, the fourth byte stays. *)
Lemma add_diffs_spec (r g b a dr dg db : Z) :
  add_diffs [r; g; b; a] dr dg db =
    [(r + dr) mod 256; (g + dg) mod 256; (b + db) mod 256; a].
Proof.
  assert (C : forall x, TA.to_uint8_clamp (x mod 256) = x mod 256).
  { intros x. apply clamp_id. pose proof (Z.mod_pos_bound x 256). lia. }
  unfold add_diffs, add_channel, TA.put, TA.get, TA.length.
  cbn [List.length Z.of_nat Pos.of_succ_nat Pos.succ Z.leb Z.ltb Z.compare
       Pos.compare Pos.compare_cont andb Z.to_nat Pos.to_nat Pos.iter_op
       Nat.add nth firstn skipn app Z.add Pos.add].
  now rewrite !or_and_wrap, !C.
Qed.

Lemma wf_room (st : State) (px : list Z) :
  wf st -> seenHeader st = true -> pixels st = Some px ->
  pixelOffset st < TA.length px -> pixelOffset st + 4 <= TA.length px.
Proof.
  intros W S P F.
  destruct (wf_seen st W S) as (w & h & px0 & _ & _ & Hp & Hl & _ & Ha & _).
  rewrite P in Hp. injection Hp as <-.
  assert (A : pixelOffset st mod 4 = 0) by (apply Ha; lia).
  pose proof (Z.div_mod (pixelOffset st) 4) as D.
  remember (w * h) as k. remember (pixelOffset st / 4) as q. lia.
Qed.

Lemma step_opcode (st : State) (px : list Z) (b : byte) :
  seenHeader st = true -> pixels st = Some px ->
  pixelOffset st < TA.length px ->
  step st b = opcode_byte st px (u8 b).
Proof.
  intros S P F. unfold step. rewrite S, P. cbn [negb].
  destruct (Z.leb_spec (TA.length px) (pixelOffset st)); [lia|reflexivity].
Qed.

Ltac by_range :=
  repeat match goal with
    | |- context [?x =? ?y] => destruct (Z.eqb_spec x y); try lia
    | |- context [?x <? ?y] => destruct (Z.ltb_spec x y); try lia
    | |- context [?x <=? ?y] => destruct (Z.leb_spec x y); try lia
    end.

Lemma current_op (st : State) (b : byte) (o : OpId) :
  (op st = OP_NONE_ID /\ identify (u8 b) = o) \/
  (op st = o /\ o <> OP_NONE_ID) ->
  current_opcode st (u8 b) = o.
Proof.
  unfold current_opcode.
  intros [[-> E]|[-> N]]; [exact E|]. destruct o; congruence.
Qed.

(** DIFF. *)
Lemma opcode_diff (st : State) (px : list Z) (b : byte) :
  wf st -> pixelOffset st + 4 <= TA.length px ->
  op st = OP_NONE_ID -> 64 <= u8 b < 128 ->
  opcode_byte st px (u8 b) =
    Ok (emitted st px 1
          (add_diffs (lastPixel st) (-2 + (u8 b / 16) mod 4)
             (-2 + (u8 b / 4) mod 4) (-2 + u8 b mod 4))).
Proof.
  intros W F O R. unfold opcode_byte.
  rewrite (current_op st b OP_DIFF_ID)
    by (left; split; [exact O|rewrite identify_spec; by_range; reflexivity]).
  rewrite field_54, field_32, field_10.
  apply emit_ok; try assumption.
  - rewrite add_diffs_length. apply W.
  - apply add_diffs_values. apply W.
  - apply W.
Qed.

(** LUMA, first byte: the green difference is kept in [opBuffer[0]]. *)
Lemma opcode_luma1 (st : State) (px : list Z) (b : byte) :
  wf st -> op st = OP_NONE_ID -> 128 <= u8 b < 192 ->
  opcode_byte st px (u8 b) =
    Ok (with_op st OP_LUMA_ID
          (TA.put TA.to_uint8_clamp (opBuffer st) 0 (u8 b mod 64)) 1).
Proof.
  intros W O R. unfold opcode_byte.
  rewrite (current_op st b OP_LUMA_ID)
    by (left; split; [exact O|rewrite identify_spec; by_range; reflexivity]).
  pose proof (wf_op st W) as I. unfold op_inv in I. rewrite O in I.
  destruct I as [_ ->]. cbn [Z.eqb Z.add]. now rewrite and_63.
Qed.

(** LUMA, second byte. *)
Lemma opcode_luma2 (st : State) (px : list Z) (b : byte) :
  wf st -> pixelOffset st + 4 <= TA.length px ->
  op st = OP_LUMA_ID ->
  opcode_byte st px (u8 b) =
    Ok (emitted st px 1
          (add_diffs (lastPixel st)
             (-32 + TA.get (opBuffer st) 0 + (-8 + u8 b / 16))
             (-32 + TA.get (opBuffer st) 0)
             (-32 + TA.get (opBuffer st) 0 + (-8 + u8 b mod 16)))).
Proof.
  intros W F O. unfold opcode_byte.
  rewrite (current_op st b OP_LUMA_ID) by (right; split; congruence).
  pose proof (wf_op st W) as I. unfold op_inv in I. rewrite O in I.
  destruct I as [_ ->]. cbn [Z.eqb].
  rewrite field_hi, field_lo.
  apply emit_ok; try assumption.
  - rewrite add_diffs_length. apply W.
  - apply add_diffs_values. apply W.
  - apply W.
Qed.

(** INDEX: the previous pixel becomes the selected cache slot. *)
Lemma opcode_index (st : State) (px : list Z) (b : byte) :
  wf st -> pixelOffset st + 4 <= TA.length px ->
  op st = OP_NONE_ID -> u8 b < 64 ->
  opcode_byte st px (u8 b) =
    Ok (emitted st px 1 (slot (indexValues st) (u8 b))).
Proof.
  intros W F O R. unfold opcode_byte.
  pose proof (u8_range b) as Rb.
  rewrite (current_op st b OP_INDEX_ID)
    by (left; split; [exact O|rewrite identify_spec; by_range; reflexivity]).
  rewrite index_shl, (Z.mod_small (u8 b) 64) by lia.
  fold (slot (indexValues st) (u8 b)).
  assert (Ls : List.length (slot (indexValues st) (u8 b)) = 4%nat).
  { rewrite slot_eq, length_firstn, length_skipn, (wf_index_len st W). lia. }
  rewrite set_whole by (rewrite (wf_last_len st W); exact Ls). cbn [bind].
  apply emit_ok; try assumption.
  - rewrite slot_eq. apply Forall_firstn, Forall_skipn, W.
  - apply W.
Qed.

(** RUN: the copies are written when they fit; otherwise the write past
    the end of [pixels] throws. *)
Lemma opcode_run (st : State) (px : list Z) (b : byte) :
  wf st -> op st = OP_NONE_ID -> 192 <= u8 b <= 253 ->
  pixelOffset st <= TA.length px ->
  opcode_byte st px (u8 b) =
    if pixelOffset st + 4 * (u8 b - 191) <=? TA.length px
    then Ok (emitted st px (Z.to_nat (u8 b - 191)) (lastPixel st))
    else Err RangeError.
Proof.
  intros W O R F. unfold opcode_byte.
  rewrite (current_op st b OP_RUN_ID)
    by (left; split; [exact O|rewrite identify_spec; by_range; reflexivity]).
  rewrite and_63.
  replace (u8 b mod 64 + 1) with (u8 b - 191)
    by (rewrite <- (Z.mod_add _ (-3) 64), (Z.mod_small (u8 b + -3 * 64) 64);
        lia).
  pose proof (wf_offset st W) as H0.
  destruct (Z.leb_spec (pixelOffset st + 4 * (u8 b - 191)) (TA.length px)).
  - rewrite run_loop_ok by (try apply W; lia). cbn [bind fst snd].
    rewrite finish_ok by apply W.
    unfold emitted. rewrite fill_zero, (wf_buf_len st W), Z2Nat.id by lia.
    reflexivity.
  - rewrite run_loop_err by (try apply W; lia). reflexivity.
Qed.

(** RGB and RGBA: the data bytes are collected in [opBuffer]; the last
    one completes the pixel. *)
Lemma opcode_rgb (st : State) (px : list Z) (b : byte) :
  wf st -> pixelOffset st + 4 <= TA.length px ->
  (op st = OP_NONE_ID /\ u8 b = 254) \/ op st = OP_RGB_ID ->
  opcode_byte st px (u8 b) =
    let buf :=
      if 0 <? opOffset st
      then TA.put TA.to_uint8_clamp (opBuffer st) (opOffset st - 1) (u8 b)
      else opBuffer st in
    if opOffset st + 1 <=? 3
    then Ok (with_op st OP_RGB_ID buf (opOffset st + 1))
    else Ok (emitted st px 1
               (TA.put TA.to_uint8_clamp buf 3 (TA.get (lastPixel st) 3))).
Proof.
  intros W F O. unfold opcode_byte.
  rewrite (current_op st b OP_RGB_ID).
  2:{ destruct O as [[O E]|O]; [left|right]; split; try congruence.
      rewrite identify_spec, E. reflexivity. }
  cbv zeta.
  set (buf := if 0 <? opOffset st then _ else _).
  assert (Lb : List.length buf = 4%nat).
  { subst buf. destruct (0 <? opOffset st); rewrite ?put_length; apply W. }
  assert (Vb : byte_values buf).
  { subst buf. destruct (0 <? opOffset st);
      [apply put_clamp_values|]; apply W. }
  destruct (opOffset st + 1 <=? 3); [reflexivity|].
  rewrite set_whole by (rewrite put_length, (wf_last_len st W); exact Lb).
  cbn [bind]. apply emit_ok; try assumption.
  - now rewrite put_length.
  - now apply put_clamp_values.
  - now rewrite put_length.
Qed.

Lemma opcode_rgba (st : State) (px : list Z) (b : byte) :
  wf st -> pixelOffset st + 4 <= TA.length px ->
  (op st = OP_NONE_ID /\ u8 b = 255) \/ op st = OP_RGBA_ID ->
  opcode_byte st px (u8 b) =
    let buf :=
      if 0 <? opOffset st
      then TA.put TA.to_uint8_clamp (opBuffer st) (opOffset st - 1) (u8 b)
      else opBuffer st in
    if opOffset st + 1 <=? 4
    then Ok (with_op st OP_RGBA_ID buf (opOffset st + 1))
    else Ok (emitted st px 1 buf).
Proof.
  intros W F O. unfold opcode_byte.
  rewrite (current_op st b OP_RGBA_ID).
  2:{ destruct O as [[O E]|O]; [left|right]; split; try congruence.
      rewrite identify_spec, E. reflexivity. }
  cbv zeta.
  set (buf := if 0 <? opOffset st then _ else _).
  assert (Lb : List.length buf = 4%nat).
  { subst buf. destruct (0 <? opOffset st); rewrite ?put_length; apply W. }
  assert (Vb : byte_values buf).
  { subst buf. destruct (0 <? opOffset st);
      [apply put_clamp_values|]; apply W. }
  destruct (opOffset st + 1 <=? 4); [reflexivity|].
  rewrite set_whole by (rewrite (wf_last_len st W); exact Lb).
  cbn [bind]. apply emit_ok; assumption.
Qed.

(** ** The invariant holds in every reachable state *)

Lemma init_wf : wf init.
Proof.
  constructor.
  - reflexivity.
  - reflexivity.
  - repeat constructor; lia.
  - reflexivity.
  - apply byte_values_repeat0.
  - reflexivity.
  - apply byte_values_repeat0.
  - change (0 <= 0). lia.
  - intros i Hi. left. rewrite slot_eq. cbn [init indexValues].
    change (Z.to_nat (INDEX_ARRAY_SIZE * 4)) with 256%nat.
    apply (nth_ext _ _ 0 0).
    + rewrite length_firstn, length_skipn, repeat_length.
      cbn [List.length]. lia.
    + intros n Hn. rewrite length_firstn in Hn.
      rewrite slice_nth by lia. rewrite nth_repeat.
      destruct n as [|[|[|[|n]]]]; try reflexivity. lia.
  - split; reflexivity.
  - unfold header_inv. cbn [init seenHeader width height pixels pixelOffset
                            headerBufferOffset].
    repeat split; lia.
Qed.

Lemma with_op_wf (st : State) (o : OpId) (buf : list Z) (off : Z) :
  wf st -> seenHeader st = true ->
  List.length buf = 4%nat -> byte_values buf ->
  match o with
  | OP_RGB_ID => 1 <= off <= 3
  | OP_RGBA_ID => 1 <= off <= 4
  | OP_LUMA_ID => off = 1
  | _ => False
  end ->
  wf (with_op st o buf off).
Proof.
  intros W S Lb Vb Ho.
  constructor; cbn [with_op headerBuffer lastPixel indexValues opBuffer
                    pixelOffset]; try apply W; try assumption.
  unfold op_inv. cbn [with_op op opOffset seenHeader].
  destruct o; try contradiction; split; assumption.
Qed.

Lemma identify_cases (b : byte) :
  (identify (u8 b) = OP_RGB_ID /\ u8 b = 254) \/
  (identify (u8 b) = OP_RGBA_ID /\ u8 b = 255) \/
  (identify (u8 b) = OP_INDEX_ID /\ u8 b < 64) \/
  (identify (u8 b) = OP_DIFF_ID /\ 64 <= u8 b < 128) \/
  (identify (u8 b) = OP_LUMA_ID /\ 128 <= u8 b < 192) \/
  (identify (u8 b) = OP_RUN_ID /\ 192 <= u8 b <= 253).
Proof.
  rewrite identify_spec. pose proof (u8_range b).
  by_range;
    repeat match goal with
      | |- _ \/ _ => first [left; split; [reflexivity|lia] | right]
      end;
    split; [reflexivity|lia].
Qed.

Lemma opcode_byte_wf (st st' : State) (px : list Z) (b : byte) :
  wf st -> seenHeader st = true -> pixels st = Some px ->
  pixelOffset st < TA.length px ->
  opcode_byte st px (u8 b) = Ok st' -> wf st'.
Proof.
  intros W S P F R.
  pose proof (wf_room st px W S P F) as F4.
  pose proof (wf_op st W) as I. unfold op_inv in I.
  assert (E1 : forall p, List.length p = 4%nat -> byte_values p ->
                         wf (emitted st px 1 p)).
  { intros p Lp Vp. apply emitted_wf; try assumption; lia. }
  destruct (op st) eqn:O; try contradiction; try (destruct I; congruence).
  - (* a tag byte *)
    destruct I as [_ I0].
    destruct (identify_cases b) as [[_ T]|[[_ T]|[[_ T]|[[_ T]|[[_ T]|[_ T]]]]]].
    + rewrite opcode_rgb in R by (try assumption; left; split; assumption).
      rewrite I0 in R. cbn in R. injection R as <-.
      apply with_op_wf; try assumption; try apply W. lia.
    + rewrite opcode_rgba in R by (try assumption; left; split; assumption).
      rewrite I0 in R. cbn in R. injection R as <-.
      apply with_op_wf; try assumption; try apply W. lia.
    + rewrite opcode_index in R by assumption. injection R as <-.
      apply E1.
      * rewrite slot_eq, length_firstn, length_skipn, (wf_index_len st W).
        pose proof (u8_range b). lia.
      * rewrite slot_eq. apply Forall_firstn, Forall_skipn, W.
    + rewrite opcode_diff in R by assumption. injection R as <-.
      apply E1; [rewrite add_diffs_length|apply add_diffs_values]; apply W.
    + rewrite opcode_luma1 in R by assumption. injection R as <-.
      apply with_op_wf; try assumption; try reflexivity.
      * rewrite put_length. apply W.
      * apply put_clamp_values, W.
    + rewrite opcode_run in R by (try assumption; lia).
      destruct (Z.leb_spec (pixelOffset st + 4 * (u8 b - 191)) (TA.length px));
        [|discriminate].
      injection R as <-.
      apply emitted_wf; try assumption; try apply W. lia.
  - (* inside RGB *)
    destruct I as [_ I0].
    rewrite opcode_rgb in R by (try assumption; now right). cbv zeta in R.
    destruct (Z.ltb_spec 0 (opOffset st)); [|lia].
    destruct (Z.leb_spec (opOffset st + 1) 3); injection R as <-.
    + apply with_op_wf; try assumption; try lia.
      * rewrite put_length. apply W.
      * apply put_clamp_values, W.
    + apply E1; [rewrite !put_length|repeat apply put_clamp_values]; apply W.
  - (* inside RGBA *)
    destruct I as [_ I0].
    rewrite opcode_rgba in R by (try assumption; now right). cbv zeta in R.
    destruct (Z.ltb_spec 0 (opOffset st)); [|lia].
    destruct (Z.leb_spec (opOffset st + 1) 4); injection R as <-.
    + apply with_op_wf; try assumption; try lia.
      * rewrite put_length. apply W.
      * apply put_clamp_values, W.
    + apply E1; [rewrite !put_length|repeat apply put_clamp_values]; apply W.
  - (* inside LUMA *)
    rewrite opcode_luma2 in R by assumption. injection R as <-.
    apply E1; [rewrite add_diffs_length|apply add_diffs_values]; apply W.
Qed.

Lemma make_inv (n : Z) (px : list Z) :
  TA.make n = Ok px -> 0 <= n /\ px = repeat 0 (Z.to_nat n).
Proof.
  unfold TA.make. destruct (Z.ltb_spec n 0); cbn [orb]; [discriminate|].
  destruct (2 ^ 53 - 1 <? n); [discriminate|].
  intros E. injection E as <-. split; [assumption|reflexivity].
Qed.

Lemma header_byte_wf (st st' : State) (b : byte) :
  wf st -> seenHeader st = false ->
  header_byte st (u8 b) = Ok st' -> wf st'.
Proof.
  intros W S R.
  destruct (wf_unseen st W S) as (Hw & Hh & Hp & Ho & Hb & Hop & Hoo).
  unfold header_byte in R.
  destruct (Z.eqb_spec (headerBufferOffset st + 1) 14) as [E|E];
    cbn [negb] in R.
  - destruct (parseQoiHeaderBytes _) as [h|e]; [|discriminate].
    cbn [bind] in R.
    destruct (TA.make _) as [px|e] eqn:M; [|discriminate].
    cbn [bind] in R. injection R as <-.
    apply make_inv in M. destruct M as [M0 ->].
    constructor; cbn [headerBuffer lastPixel indexValues opBuffer pixelOffset];
      try apply W.
    + rewrite put_length. apply W.
    + unfold op_inv. cbn [op seenHeader opOffset]. split; [reflexivity|exact Hoo].
    + unfold header_inv. cbn [seenHeader width height pixels pixelOffset].
      exists (h_width h), (h_height h),
        (repeat 0 (Z.to_nat (h_width h * h_height h * 4))).
      unfold TA.length. rewrite repeat_length, Ho.
      repeat split; try lia.
      intros i _. apply nth_repeat.
  - injection R as <-.
    constructor; cbn [headerBuffer lastPixel indexValues opBuffer pixelOffset];
      try apply W.
    + rewrite put_length. apply W.
    + unfold op_inv. cbn [op seenHeader opOffset]. rewrite Hop.
      split; [reflexivity|exact Hoo].
    + unfold header_inv.
      cbn [seenHeader width height pixels pixelOffset headerBufferOffset].
      repeat split; try assumption; lia.
Qed.

Lemma trailer_byte_wf (st st' : State) (px : list Z) (b : byte) :
  wf st -> seenHeader st = true -> pixels st = Some px ->
  TA.length px <= pixelOffset st ->
  trailer_byte st px (u8 b) = Ok st' -> wf st'.
Proof.
  intros W S P F R. unfold trailer_byte in R.
  destruct (wf_seen st W S) as (w & h & px0 & Hw & Hh & Hp & Hl & Hb & Ha & Hz).
  rewrite P in Hp. injection Hp as <-.
  destruct (Z.ltb_spec 7 (pixelOffset st - TA.length px)) as [T|T];
    [now rewrite orb_true_r in R|].
  destruct (_ || _ || _); [discriminate|]. injection R as <-.
  constructor;
    cbn [with_pixelOffset headerBuffer lastPixel indexValues opBuffer
         pixelOffset]; try apply W.
  - pose proof (wf_offset st W). lia.
  - unfold header_inv.
    cbn [with_pixelOffset seenHeader width height pixels pixelOffset].
    rewrite S. exists w, h, px. repeat split; try assumption; try lia.
    intros i Hi. apply Hz. lia.
Qed.

Lemma step_wf (st st' : State) (b : byte) :
  wf st -> step st b = Ok st' -> wf st'.
Proof.
  intros W R.
  destruct (seenHeader st) eqn:S.
  - destruct (wf_seen st W S) as (w & h & px & _ & _ & P & _).
    destruct (Z.le_gt_cases (TA.length px) (pixelOffset st)) as [F|F].
    + unfold step in R. rewrite S, P in R. cbn [negb] in R.
      destruct (Z.leb_spec (TA.length px) (pixelOffset st)); [|lia].
      now apply (trailer_byte_wf st st' px b).
    + rewrite (step_opcode st px b) in R by (assumption || lia).
      apply (opcode_byte_wf st st' px b); assumption || lia.
  - unfold step in R. rewrite S in R. cbn [negb] in R.
    now apply (header_byte_wf st st' b).
Qed.

Theorem reachable_wf (st : State) : reachable st -> wf st.
Proof.
  intros [bs R]. revert bs st R.
  apply (run_bytes_ind (fun _ st => wf st)).
  - exact init_wf.
  - intros bs st b st' _ W S. exact (step_wf st st' b W S).
Qed.

(** ** Concrete states for examples *)

Lemma state_after_reachable (bytes : list Z) : reachable (state_after bytes).
Proof.
  unfold state_after.
  destruct (run_bytes init (bytes_of bytes)) as [st|e] eqn:E.
  - exists (bytes_of bytes). exact E.
  - exact reachable_init.
Qed.

(** What a reachable state with a parsed header holds. *)
Lemma reachable_header (st : State) (w h : Z) :
  reachable st -> width st = Some w -> height st = Some h ->
  wf st /\ seenHeader st = true /\
  exists px, pixels st = Some px /\ TA.length px = w * h * 4.
Proof.
  intros R Hw Hh. pose proof (reachable_wf st R) as W.
  destruct (seenHeader st) eqn:S.
  - destruct (wf_seen st W S) as (w' & h' & px & Hw' & Hh' & P & L & _).
    rewrite Hw' in Hw. rewrite Hh' in Hh.
    injection Hw as ->. injection Hh as ->.
    split; [exact W|]. split; [reflexivity|].
    exists px. split; assumption.
  - destruct (wf_unseen st W S) as (Hw' & _). congruence.
Qed.

Lemma reachable_pixels (st : State) (px : list Z) :
  reachable st -> pixels st = Some px -> wf st /\ seenHeader st = true.
Proof.
  intros R P. pose proof (reachable_wf st R) as W. split; [exact W|].
  destruct (seenHeader st) eqn:S; [reflexivity|].
  destruct (wf_unseen st W S) as (_ & _ & P' & _). congruence.
Qed.

(** ** Chunk boundaries *)

Lemma run_chunks_concat (st : State) (chunks : list (list byte)) :
  run_chunks st chunks = run_bytes st (concat chunks).
Proof.
  revert st. induction chunks as [|c chunks IH]; intros st.
  - reflexivity.
  - cbn [run_chunks concat]. rewrite run_bytes_app.
    destruct (run_bytes st c) as [st1|e]; cbn [bind]; [apply IH|reflexivity].
Qed.

(** C6. However a byte stream is cut into chunks (also inside the header
    or inside a multi-byte opcode), feeding the chunks one after the other
    to a decode session gives the same result -- the same width, height and
    pixel buffer, or the same exception -- as feeding the whole stream as
    one chunk. *)
Theorem chunking_is_irrelevant (chunks : list (list byte)) :
  getQoiPixelData chunks = getQoiPixelData [concat chunks].
Proof.
  unfold getQoiPixelData. rewrite !run_chunks_concat.
  cbn [concat]. now rewrite app_nil_r.
Qed.

(** A 2x2 image with one opcode of each multi-byte kind, cut inside the
    header, inside RGBA, inside RGB and inside LUMA. *)
Example chunked_decode :
  getQoiPixelData
    [bytes_of [113; 111; 105]; bytes_of [102; 0; 0; 0; 2; 0; 0; 0; 2; 4; 0; 255; 9];
     bytes_of [8; 7; 6; 254; 1]; []; bytes_of [2; 3; 160]; bytes_of [136; 192];
     bytes_of [0; 0; 0; 0]; bytes_of [0; 0; 0; 1]]
  = Ok (mkOutput (Some 2) (Some 2)
          (Some [9; 8; 7; 6; 1; 2; 3; 6; 1; 2; 3; 6; 1; 2; 3; 6])).
Proof. vm_compute. reflexivity. Qed.

(** ** The trailer *)

(** C9. Once [width * height] pixels are written, a byte is only checked
    against its place in the trailer: a 0 at places 0 to 6 and a 1 at
    place 7 advance the trailer position and change nothing else (the
    previous pixel, the cache, the pixels and the opcode state are as
    before); any other byte, and any byte at a place beyond 7, throws the
    trailer mismatch. *)
Theorem trailer_bytes_are_checked (st : State) (w h : Z) (b : byte) :
  reachable st -> width st = Some w -> height st = Some h ->
  w * h * 4 <= pixelOffset st ->
  step st b =
    let t := pixelOffset st - w * h * 4 in
    if ((t <? 7) && (u8 b =? 0)) || ((t =? 7) && (u8 b =? 1))
    then Ok (with_pixelOffset st (pixelOffset st + 1))
    else Err TrailerMismatch.
Proof.
  intros R Hw Hh F.
  destruct (reachable_header st w h R Hw Hh) as (W & S & px & P & L).
  unfold step. rewrite S, P. cbn [negb]. rewrite L.
  destruct (Z.leb_spec (w * h * 4) (pixelOffset st)); [|lia].
  unfold trailer_byte. rewrite L. cbv zeta.
  by_range; reflexivity.
Qed.

(** The last trailer byte of a 1x1 image. *)
Lemma trailer_bytes_are_checked_witness :
  let st := state_after [113; 111; 105; 102; 0; 0; 0; 1; 0; 0; 0; 1; 4; 0;
                         255; 10; 20; 30; 255; 0; 0; 0; 0; 0; 0; 0] in
  step st (byte_of 1) = Ok (with_pixelOffset st 12).
Proof.
  intros st.
  rewrite (trailer_bytes_are_checked st 1 1 (byte_of 1)).
  - reflexivity.
  - apply state_after_reachable.
  - reflexivity.
  - reflexivity.
  - vm_compute. discriminate.
Defined.

(** ** RUN *)

(** C10. In every reachable state the pixel buffer has exactly
    [width * height * 4] entries, and a RUN opcode whose run length is
    more than the pixels that still fit makes the session fail: the write
    past the end of the buffer throws, whatever bytes follow. *)
Theorem run_past_the_end_fails (st : State) (w h : Z) :
  reachable st -> width st = Some w -> height st = Some h ->
  (exists px, pixels st = Some px /\ TA.length px = w * h * 4) /\
  (forall (b : byte) (rest : list byte),
      op st = OP_NONE_ID -> 192 <= u8 b <= 253 ->
      pixelOffset st < w * h * 4 ->
      w * h * 4 < pixelOffset st + 4 * (u8 b - 192 + 1) ->
      run_bytes st (b :: rest) = Err RangeError).
Proof.
  intros R Hw Hh.
  destruct (reachable_header st w h R Hw Hh) as (W & S & px & P & L).
  split; [now exists px|].
  intros b rest O Rb F V. cbn [run_bytes].
  rewrite (step_opcode st px b) by (assumption || lia).
  rewrite opcode_run by (assumption || lia).
  destruct (Z.leb_spec (pixelOffset st + 4 * (u8 b - 191)) (TA.length px));
    [lia|reflexivity].
Qed.

(** A run of 3 when 2 pixels of a 1x3 image are left. *)
Lemma run_past_the_end_fails_witness :
  run_bytes
    (state_after [113; 111; 105; 102; 0; 0; 0; 1; 0; 0; 0; 3; 3; 0;
                  254; 100; 100; 100])
    (bytes_of [194; 0; 0; 0; 0; 0; 0; 0; 1]) = Err RangeError.
Proof.
  refine (proj2 (run_past_the_end_fails _ 1 3 _ _ _) (byte_of 194) _ _ _ _ _).
  - apply state_after_reachable.
  - reflexivity.
  - reflexivity.
  - reflexivity.
  - vm_compute. split; discriminate.
  - reflexivity.
  - reflexivity.
Defined.

(** C8. A RUN opcode with the value [v] in its low six bits, [0 <= v <= 61],
    decoded when [v + 1] pixels still fit, writes exactly [v + 1] copies of
    the previous pixel at the write offset, advances the offset by
    [v + 1] pixels and leaves the previous pixel as it was. *)
Theorem run_emits_copies (st : State) (px : list Z) (b : byte) (v : Z) :
  reachable st -> pixels st = Some px -> op st = OP_NONE_ID ->
  0 <= v <= 61 -> u8 b = 192 + v ->
  pixelOffset st + 4 * (v + 1) <= TA.length px ->
  exists st',
    step st b = Ok st' /\
    pixels st' =
      Some (firstn (Z.to_nat (pixelOffset st)) px
            ++ concat (repeat (lastPixel st) (Z.to_nat (v + 1)))
            ++ skipn (Z.to_nat (pixelOffset st + 4 * (v + 1))) px) /\
    pixelOffset st' = pixelOffset st + 4 * (v + 1) /\
    lastPixel st' = lastPixel st.
Proof.
  intros R P O Hv Hb F.
  destruct (reachable_pixels st px R P) as (W & S).
  pose proof (wf_offset st W) as H0.
  exists (emitted st px (Z.to_nat (v + 1)) (lastPixel st)).
  split; [|split; [|split]].
  - rewrite (step_opcode st px b) by (assumption || lia).
    rewrite opcode_run by (assumption || lia).
    replace (u8 b - 191) with (v + 1) by lia.
    destruct (Z.leb_spec (pixelOffset st + 4 * (v + 1)) (TA.length px));
      [reflexivity|lia].
  - cbn [emitted pixels]. unfold splice. do 4 f_equal.
    rewrite length_concat_repeat, (wf_last_len st W). lia.
  - cbn [emitted pixelOffset]. lia.
  - reflexivity.
Qed.

(** A run of 2 after the first pixel of a 1x3 image. *)
Lemma run_emits_copies_witness :
  exists st',
    step (state_after [113; 111; 105; 102; 0; 0; 0; 1; 0; 0; 0; 3; 3; 0;
                       254; 100; 100; 100]) (byte_of 193) = Ok st' /\
    pixels st' = Some [100; 100; 100; 255; 100; 100; 100; 255;
                       100; 100; 100; 255] /\
    pixelOffset st' = 12 /\
    lastPixel st' = [100; 100; 100; 255].
Proof.
  refine (run_emits_copies
            (state_after [113; 111; 105; 102; 0; 0; 0; 1; 0; 0; 0; 3; 3; 0;
                          254; 100; 100; 100])
            [100; 100; 100; 255; 0; 0; 0; 0; 0; 0; 0; 0]
            (byte_of 193) 1 _ _ _ _ _ _).
  - apply state_after_reachable.
  - reflexivity.
  - reflexivity.
  - lia.
  - reflexivity.
  - vm_compute. discriminate.
Defined.

(** ** DIFF and LUMA *)

Lemma put_splice (conv : Z -> Z) (a : list Z) (i v : Z) :
  0 <= i < TA.length a ->
  TA.put conv a i v = splice a [conv v] (Z.to_nat i).
Proof.
  intros H. unfold TA.put, splice.
  destruct (Z.leb_spec 0 i); [|lia].
  destruct (Z.ltb_spec i (TA.length a)); [|lia].
  cbn [andb app List.length]. do 3 f_equal. lia.
Qed.

Lemma get_put (conv : Z -> Z) (a : list Z) (i j v : Z) :
  0 <= i < TA.length a -> 0 <= j ->
  TA.get (TA.put conv a i v) j = if j =? i then conv v else TA.get a j.
Proof.
  intros Hi Hj. rewrite put_splice by exact Hi. unfold TA.get.
  unfold TA.length in Hi.
  rewrite splice_nth by (cbn [List.length]; lia). cbn [List.length].
  destruct (Z.eqb_spec j i) as [->|N].
  - destruct (Nat.ltb_spec (Z.to_nat i) (Z.to_nat i)); [lia|].
    destruct (Nat.ltb_spec (Z.to_nat i) (Z.to_nat i + 1)); [|lia].
    now rewrite Nat.sub_diag.
  - destruct (Nat.ltb_spec (Z.to_nat j) (Z.to_nat i)); [reflexivity|].
    destruct (Nat.ltb_spec (Z.to_nat j) (Z.to_nat i + 1)); [lia|reflexivity].
Qed.

Ltac channels_eq :=
  repeat (apply (f_equal2 cons);
          [try (apply (f_equal (fun z => z mod 256)); lia)|]);
  reflexivity.

Lemma four_bytes (p : list Z) :
  List.length p = 4%nat ->
  p = [TA.get p 0; TA.get p 1; TA.get p 2; TA.get p 3].
Proof.
  destruct p as [|r [|g [|b [|a [|x p]]]]]; try discriminate. reflexivity.
Qed.

(** C7. A DIFF opcode adds its three two-bit differences (each the bit
    pair minus 2), and a LUMA opcode its green difference (six bits minus
    32) and red and blue differences (green difference plus nibble minus
    8), to the red, green and blue of the previous pixel modulo 256; the
    alpha of the previous pixel is unchanged. *)
Theorem diff_luma_add_modulo_256
    (st : State) (px : list Z) (r g bl a : Z) :
  reachable st -> pixels st = Some px -> pixelOffset st < TA.length px ->
  op st = OP_NONE_ID -> lastPixel st = [r; g; bl; a] ->
  (forall b : byte,
      64 <= u8 b < 128 ->
      exists st',
        step st b = Ok st' /\
        lastPixel st' =
          [ (r + ((u8 b / 16) mod 4 - 2)) mod 256;
            (g + ((u8 b / 4) mod 4 - 2)) mod 256;
            (bl + (u8 b mod 4 - 2)) mod 256;
            a ]) /\
  (forall b1 b2 : byte,
      128 <= u8 b1 < 192 ->
      exists st',
        run_bytes st [b1; b2] = Ok st' /\
        lastPixel st' =
          [ (r + ((u8 b1 mod 64 - 32) + (u8 b2 / 16 - 8))) mod 256;
            (g + (u8 b1 mod 64 - 32)) mod 256;
            (bl + ((u8 b1 mod 64 - 32) + (u8 b2 mod 16 - 8))) mod 256;
            a ]).
Proof.
  intros R P F O L.
  destruct (reachable_pixels st px R P) as (W & S).
  pose proof (wf_room st px W S P F) as F4.
  split.
  - intros b Hb. eexists. split.
    + rewrite (step_opcode st px b) by assumption.
      apply opcode_diff; assumption.
    + cbn [emitted lastPixel]. rewrite L, add_diffs_spec. channels_eq.
  - intros b1 b2 Hb.
    set (st1 := with_op st OP_LUMA_ID
                  (TA.put TA.to_uint8_clamp (opBuffer st) 0 (u8 b1 mod 64)) 1).
    assert (S1 : step st b1 = Ok st1).
    { rewrite (step_opcode st px b1) by assumption.
      apply opcode_luma1; assumption. }
    assert (W1 : wf st1) by exact (step_wf st st1 b1 W S1).
    assert (G : TA.get (opBuffer st1) 0 = u8 b1 mod 64).
    { cbn [st1 with_op opBuffer].
      rewrite get_put by (unfold TA.length; rewrite ?(wf_buf_len st W); lia).
      cbn [Z.eqb]. apply clamp_id.
      pose proof (Z.mod_pos_bound (u8 b1) 64). lia. }
    eexists. split.
    + cbn [run_bytes]. rewrite S1. cbn [bind].
      rewrite (step_opcode st1 px b2) by assumption.
      rewrite opcode_luma2 by (try assumption; reflexivity).
      reflexivity.
    + cbn [emitted lastPixel]. rewrite G.
      change (lastPixel st1) with (lastPixel st).
      rewrite L, add_diffs_spec. channels_eq.
Qed.

(** The two wrap-arounds: red 0 with difference -2 gives 254 (DIFF byte
    0b01_00_10_10), red 255 with difference +1 gives 0 (0b01_11_10_10);
    and LUMA with green difference -2 and no further difference for red
    and blue (bytes 0b10_011110, 0x88) on the pixel (0,0,0,255). *)
Lemma diff_luma_add_modulo_256_witness :
  (exists st',
      step (state_after [113; 111; 105; 102; 0; 0; 0; 1; 0; 0; 0; 3; 4; 0])
           (byte_of 74) = Ok st' /\
      lastPixel st' = [254; 0; 0; 255]) /\
  (exists st',
      step (state_after [113; 111; 105; 102; 0; 0; 0; 1; 0; 0; 0; 3; 4; 0;
                         254; 255; 7; 7])
           (byte_of 122) = Ok st' /\
      lastPixel st' = [0; 7; 7; 255]) /\
  (exists st',
      run_bytes (state_after [113; 111; 105; 102; 0; 0; 0; 1;
                              0; 0; 0; 3; 4; 0])
           [byte_of 158; byte_of 136] = Ok st' /\
      lastPixel st' = [254; 254; 254; 255]).
Proof.
  split; [|split].
  - refine (proj1 (diff_luma_add_modulo_256
                     (state_after [113; 111; 105; 102; 0; 0; 0; 1;
                                   0; 0; 0; 3; 4; 0])
                     (repeat 0 12) 0 0 0 255 _ _ _ _ _) (byte_of 74) _).
    + apply state_after_reachable.
    + reflexivity.
    + reflexivity.
    + reflexivity.
    + reflexivity.
    + vm_compute. split; [discriminate|reflexivity].
  - refine (proj1 (diff_luma_add_modulo_256
                     (state_after [113; 111; 105; 102; 0; 0; 0; 1;
                                   0; 0; 0; 3; 4; 0; 254; 255; 7; 7])
                     ([255; 7; 7; 255] ++ repeat 0 8) 255 7 7 255 _ _ _ _ _)
              (byte_of 122) _).
    + apply state_after_reachable.
    + reflexivity.
    + reflexivity.
    + reflexivity.
    + reflexivity.
    + vm_compute. split; [discriminate|reflexivity].
  - refine (proj2 (diff_luma_add_modulo_256
                     (state_after [113; 111; 105; 102; 0; 0; 0; 1;
                                   0; 0; 0; 3; 4; 0])
                     (repeat 0 12) 0 0 0 255 _ _ _ _ _)
              (byte_of 158) (byte_of 136) _).
    + apply state_after_reachable.
    + reflexivity.
    + reflexivity.
    + reflexivity.
    + reflexivity.
    + vm_compute. split; [discriminate|reflexivity].
Defined.

(** ** The shape of a step *)

(** A byte of the opcode stream either continues a multi-byte opcode,
    changing only the opcode state, or completes an opcode, which emits
    one or more copies of the new previous pixel. *)
Lemma opcode_byte_shape (st st' : State) (px : list Z) (b : byte) :
  wf st -> seenHeader st = true -> pixels st = Some px ->
  pixelOffset st < TA.length px ->
  opcode_byte st px (u8 b) = Ok st' ->
  (exists o buf off, st' = with_op st o buf off) \/
  (exists n p,
      st' = emitted st px n p /\ (0 < n)%nat /\ List.length p = 4%nat /\
      pixelOffset st + 4 * Z.of_nat n <= TA.length px).
Proof.
  intros W S P F R.
  pose proof (wf_room st px W S P F) as F4.
  pose proof (wf_op st W) as I. unfold op_inv in I.
  assert (E1 : forall p, List.length p = 4%nat ->
      (exists o buf off, emitted st px 1 p = with_op st o buf off) \/
      (exists n q,
          emitted st px 1 p = emitted st px n q /\ (0 < n)%nat /\
          List.length q = 4%nat /\
          pixelOffset st + 4 * Z.of_nat n <= TA.length px)).
  { intros p Lp. right. exists 1%nat, p. repeat split; try assumption; lia. }
  destruct (op st) eqn:O; try contradiction; try (destruct I; congruence).
  - destruct I as [_ I0].
    destruct (identify_cases b) as [[_ T]|[[_ T]|[[_ T]|[[_ T]|[[_ T]|[_ T]]]]]].
    + rewrite opcode_rgb in R by (try assumption; left; split; assumption).
      rewrite I0 in R. cbn in R. injection R as <-. left. eauto.
    + rewrite opcode_rgba in R by (try assumption; left; split; assumption).
      rewrite I0 in R. cbn in R. injection R as <-. left. eauto.
    + rewrite opcode_index in R by assumption. injection R as <-.
      apply E1.
      rewrite slot_eq, length_firstn, length_skipn, (wf_index_len st W).
      pose proof (u8_range b). lia.
    + rewrite opcode_diff in R by assumption. injection R as <-.
      apply E1. rewrite add_diffs_length. apply W.
    + rewrite opcode_luma1 in R by assumption. injection R as <-.
      left. eauto.
    + rewrite opcode_run in R by (try assumption; lia).
      destruct (Z.leb_spec (pixelOffset st + 4 * (u8 b - 191)) (TA.length px));
        [|discriminate].
      injection R as <-. right.
      exists (Z.to_nat (u8 b - 191)), (lastPixel st).
      repeat split; try apply W; lia.
  - destruct I as [_ I0].
    rewrite opcode_rgb in R by (try assumption; now right). cbv zeta in R.
    destruct (opOffset st + 1 <=? 3); injection R as <-.
    + left. eauto.
    + apply E1. rewrite put_length.
      destruct (0 <? opOffset st); rewrite ?put_length; apply W.
  - destruct I as [_ I0].
    rewrite opcode_rgba in R by (try assumption; now right). cbv zeta in R.
    destruct (opOffset st + 1 <=? 4); injection R as <-.
    + left. eauto.
    + apply E1. destruct (0 <? opOffset st); rewrite ?put_length; apply W.
  - rewrite opcode_luma2 in R by assumption. injection R as <-.
    apply E1. rewrite add_diffs_length. apply W.
Qed.

(** Every byte processed after the header leaves the header fields as
    they are. *)
Lemma step_keeps_header (st st' : State) (b : byte) :
  wf st -> seenHeader st = true -> step st b = Ok st' ->
  seenHeader st' = true /\ width st' = width st /\ height st' = height st.
Proof.
  intros W S R.
  destruct (wf_seen st W S) as (w & h & px & _ & _ & P & _).
  destruct (Z.le_gt_cases (TA.length px) (pixelOffset st)) as [F|F].
  - unfold step in R. rewrite S, P in R. cbn [negb] in R.
    destruct (Z.leb_spec (TA.length px) (pixelOffset st)); [|lia].
    unfold trailer_byte in R.
    destruct (_ || _ || _); [discriminate|]. injection R as <-.
    repeat split; assumption.
  - rewrite (step_opcode st px b) in R by (assumption || lia).
    destruct (opcode_byte_shape st st' px b W S P F R)
      as [(o & buf & off & ->)|(n & p & -> & _)];
      repeat split; assumption.
Qed.

Lemma nth_alpha_of_copies (p : list Z) (n k : nat) :
  List.length p = 4%nat -> (k < n)%nat ->
  nth (4 * k + 3) (concat (repeat p n)) 0 = nth 3 p 0.
Proof.
  intros Lp. revert k. induction n as [|n IH]; intros k Hk; [lia|].
  cbn [repeat concat]. destruct k as [|k].
  - apply app_nth1. lia.
  - rewrite app_nth2 by lia. rewrite Lp.
    replace (4 * S k + 3 - 4)%nat with (4 * k + 3)%nat by lia.
    apply IH. lia.
Qed.

(** The alpha bytes an opcode writes are the alpha of the pixel it leaves
    in the previous-pixel register. *)
Lemma emitted_alpha_bytes (st : State) (px p : list Z) (n : nat) (i : Z) :
  wf st -> seenHeader st = true -> pixels st = Some px ->
  List.length p = 4%nat ->
  pixelOffset st + 4 * Z.of_nat n <= TA.length px ->
  pixelOffset st <= i < pixelOffset st + 4 * Z.of_nat n -> i mod 4 = 3 ->
  TA.get (splice px (concat (repeat p n)) (Z.to_nat (pixelOffset st))) i
  = TA.get p 3.
Proof.
  intros W S P Lp F Hi Hm.
  destruct (wf_seen st W S) as (w & h & px0 & _ & _ & Hp & _ & _ & Ha & _).
  rewrite P in Hp. injection Hp as <-.
  pose proof (wf_offset st W) as H0.
  assert (A : pixelOffset st mod 4 = 0) by (apply Ha; lia).
  pose proof (Z.div_mod (pixelOffset st) 4) as D1.
  pose proof (Z.div_mod i 4) as D2.
  remember (pixelOffset st / 4) as q1. remember (i / 4) as q2.
  unfold TA.get, TA.length in *.
  rewrite splice_nth by (rewrite length_concat_repeat; lia).
  rewrite length_concat_repeat, Lp.
  destruct (Nat.ltb_spec (Z.to_nat i) (Z.to_nat (pixelOffset st))); [lia|].
  destruct (Nat.ltb_spec (Z.to_nat i) (Z.to_nat (pixelOffset st) + n * 4));
    [|lia].
  replace (Z.to_nat i - Z.to_nat (pixelOffset st))%nat
    with (4 * Z.to_nat (q2 - q1) + 3)%nat by lia.
  change (Z.to_nat 3) with 3%nat.
  apply nth_alpha_of_copies; [exact Lp|lia].
Qed.

(** ** Alpha *)

Lemma slot_get (cache : list Z) (i j : Z) :
  0 <= i -> 0 <= j < 4 ->
  TA.get (slot cache i) j = TA.get cache (4 * i + j).
Proof.
  intros Hi Hj. rewrite slot_eq. unfold TA.get.
  rewrite slice_nth by lia. f_equal. lia.
Qed.

Lemma byte_values_get (p : list Z) (i : Z) :
  byte_values p -> 0 <= TA.get p i <= 255.
Proof. intros H. apply byte_values_nth. exact H. Qed.

(** C3, as the code has it.  For a byte of the opcode stream: an RGB,
    DIFF, LUMA or RUN opcode leaves the alpha of the previous-pixel
    register unchanged; an RGBA opcode sets it to its fourth data byte (and
    not before); an INDEX opcode sets it to the alpha stored in the
    selected cache slot.  Every alpha byte the step writes to the pixel
    buffer is the alpha of the register after the step. *)
Theorem alpha_set_by_rgba_and_index_only
    (st st' : State) (px : list Z) (b : byte) :
  reachable st -> pixels st = Some px -> pixelOffset st < TA.length px ->
  step st b = Ok st' ->
  match current_opcode st (u8 b) with
  | OP_RGBA_ID => alpha st' = if opOffset st =? 4 then u8 b else alpha st
  | OP_INDEX_ID => alpha st' = TA.get (indexValues st) (4 * u8 b + 3)
  | _ => alpha st' = alpha st
  end /\
  (forall px' i,
      pixels st' = Some px' ->
      pixelOffset st <= i < pixelOffset st' -> i mod 4 = 3 ->
      TA.get px' i = alpha st').
Proof.
  intros Re P F R.
  destruct (reachable_pixels st px Re P) as (W & S).
  pose proof (wf_room st px W S P F) as F4.
  rewrite (step_opcode st px b) in R by assumption.
  split.
  - pose proof (wf_op st W) as I. unfold op_inv in I.
    pose proof (u8_range b) as Rb.
    pose proof (four_bytes _ (wf_last_len st W)) as L4.
    pose proof (byte_values_get (lastPixel st) 3 (wf_last_val st W)) as Va.
    assert (Lb : 0 <= 3 < TA.length (opBuffer st))
      by (unfold TA.length; rewrite (wf_buf_len st W); lia).
    unfold current_opcode, alpha.
    destruct (op st) eqn:O; try contradiction; try (destruct I; congruence).
    + destruct I as [_ I0].
      destruct (identify_cases b)
        as [[-> T]|[[-> T]|[[-> T]|[[-> T]|[[-> T]|[-> T]]]]]].
      * rewrite opcode_rgb in R by (try assumption; left; split; assumption).
        rewrite I0 in R. cbn in R. injection R as <-. reflexivity.
      * rewrite opcode_rgba in R by (try assumption; left; split; assumption).
        rewrite I0 in R. cbn in R. injection R as <-. rewrite I0. reflexivity.
      * rewrite opcode_index in R by assumption. injection R as <-.
        cbn [emitted lastPixel]. apply slot_get; lia.
      * rewrite opcode_diff in R by assumption. injection R as <-.
        cbn [emitted lastPixel]. rewrite L4 at 1. rewrite add_diffs_spec.
        reflexivity.
      * rewrite opcode_luma1 in R by assumption. injection R as <-.
        reflexivity.
      * rewrite opcode_run in R by (try assumption; lia).
        destruct (_ <=? _); [|discriminate]. injection R as <-. reflexivity.
    + destruct I as [_ I0].
      rewrite opcode_rgb in R by (try assumption; now right). cbv zeta in R.
      destruct (Z.ltb_spec 0 (opOffset st)); [|lia].
      destruct (opOffset st + 1 <=? 3); injection R as <-; [reflexivity|].
      cbn [emitted lastPixel].
      rewrite get_put by (unfold TA.length; rewrite ?put_length,
                            ?(wf_buf_len st W); lia).
      cbn [Z.eqb Pos.eqb]. apply clamp_id. exact Va.
    + destruct I as [_ I0].
      rewrite opcode_rgba in R by (try assumption; now right). cbv zeta in R.
      destruct (Z.ltb_spec 0 (opOffset st)); [|lia].
      destruct (Z.leb_spec (opOffset st + 1) 4); injection R as <-.
      * destruct (Z.eqb_spec (opOffset st) 4); [lia|reflexivity].
      * destruct (Z.eqb_spec (opOffset st) 4) as [E4|E4]; [|lia].
        cbn [emitted lastPixel]. rewrite E4.
        rewrite get_put by (assumption || lia).
        cbn [Z.eqb Pos.eqb Z.sub Z.add Z.opp Z.pos_sub Pos.pred_double].
        apply clamp_id. exact Rb.
    + rewrite opcode_luma2 in R by assumption. injection R as <-.
      cbn [emitted lastPixel]. rewrite L4 at 1. rewrite add_diffs_spec.
      reflexivity.
  - intros px' i P' Hi Hm.
    destruct (opcode_byte_shape st st' px b W S P F R)
      as [(o & buf & off & ->)|(n & p & -> & Hn & Lp & Fn)].
    + cbn [with_op pixelOffset] in Hi. lia.
    + cbn [emitted pixels pixelOffset] in P', Hi. injection P' as <-.
      unfold alpha. cbn [emitted lastPixel].
      now apply (emitted_alpha_bytes st px p n i).
Qed.

(** DIFF on the first pixel of a 1x3 image: the alpha stays 255. *)
Lemma alpha_set_by_rgba_and_index_only_witness :
  alpha (state_after [113; 111; 105; 102; 0; 0; 0; 1; 0; 0; 0; 3; 4; 0; 74])
  = alpha (state_after [113; 111; 105; 102; 0; 0; 0; 1; 0; 0; 0; 3; 4; 0]).
Proof.
  assert (H0 : reachable (state_after [113; 111; 105; 102; 0; 0; 0; 1;
                                       0; 0; 0; 3; 4; 0]))
    by apply state_after_reachable.
  assert (H1 : pixels (state_after [113; 111; 105; 102; 0; 0; 0; 1;
                                    0; 0; 0; 3; 4; 0]) = Some (repeat 0 12))
    by (vm_compute; reflexivity).
  assert (H2 : pixelOffset (state_after [113; 111; 105; 102; 0; 0; 0; 1;
                                         0; 0; 0; 3; 4; 0])
               < TA.length (repeat 0 12))
    by (vm_compute; reflexivity).
  assert (H3 : step (state_after [113; 111; 105; 102; 0; 0; 0; 1;
                                  0; 0; 0; 3; 4; 0]) (byte_of 74)
               = Ok (state_after [113; 111; 105; 102; 0; 0; 0; 1;
                                  0; 0; 0; 3; 4; 0; 74]))
    by (vm_compute; reflexivity).
  destruct (alpha_set_by_rgba_and_index_only _ _ _ _ H0 H1 H2 H3) as [H _].
  vm_compute in H. vm_compute. exact H.
Defined.

(** C3 as stated fails for INDEX: on a 1x1 image whose only opcode is
    INDEX 0, the register's alpha goes from the initial 255 to the 0 of the
    empty cache slot, and the decoded pixel has alpha 0 although no RGBA
    opcode set it. *)
Lemma index_changes_alpha :
  let st := state_after [113; 111; 105; 102; 0; 0; 0; 1; 0; 0; 0; 1; 4; 0] in
  reachable st /\ current_opcode st (u8 (byte_of 0)) = OP_INDEX_ID /\
  alpha st = 255 /\
  (exists st', step st (byte_of 0) = Ok st' /\ alpha st' = 0) /\
  getQoiPixelData
    [bytes_of [113; 111; 105; 102; 0; 0; 0; 1; 0; 0; 0; 1; 4; 0;
               0; 0; 0; 0; 0; 0; 0; 0; 1]]
  = Ok (mkOutput (Some 1) (Some 1) (Some [0; 0; 0; 0])).
Proof.
  intros st. split; [apply state_after_reachable|].
  split; [vm_compute; reflexivity|]. split; [vm_compute; reflexivity|].
  split; [|vm_compute; reflexivity].
  exists (state_after [113; 111; 105; 102; 0; 0; 0; 1; 0; 0; 0; 1; 4; 0; 0]).
  split; vm_compute; reflexivity.
Qed.

(** ** INDEX and the cache *)

(** C4, as the code has it.  An INDEX opcode makes the selected cache
    slot the previous pixel and then stores that pixel in the slot of its
    own hash.  When the pixel hashes to the selected slot the cache is left
    exactly as it was.  Otherwise the selected slot still holds its initial
    (0,0,0,0), whose hash is 0: the store then puts (0,0,0,0) in slot 0 and
    leaves every other slot as it was. *)
Theorem index_cache_write (st : State) (px : list Z) (b : byte) :
  reachable st -> pixels st = Some px -> pixelOffset st < TA.length px ->
  op st = OP_NONE_ID -> u8 b < 64 ->
  exists st',
    step st b = Ok st' /\
    lastPixel st' = slot (indexValues st) (u8 b) /\
    (color_hash (slot (indexValues st) (u8 b)) = u8 b ->
     indexValues st' = indexValues st) /\
    (color_hash (slot (indexValues st) (u8 b)) <> u8 b ->
     slot (indexValues st) (u8 b) = [0; 0; 0; 0] /\
     forall j, 0 <= j < 64 ->
       slot (indexValues st') j =
         if j =? 0 then [0; 0; 0; 0] else slot (indexValues st) j).
Proof.
  intros R P F O Hb.
  destruct (reachable_pixels st px R P) as (W & S).
  pose proof (wf_room st px W S P F) as F4.
  pose proof (u8_range b) as Rb.
  exists (emitted st px 1 (slot (indexValues st) (u8 b))).
  split; [|split; [reflexivity|split]].
  - rewrite (step_opcode st px b) by assumption.
    apply opcode_index; assumption.
  - intros H. cbn [emitted indexValues]. rewrite H, slot_eq.
    apply splice_slice_same. rewrite (wf_index_len st W). lia.
  - intros H.
    destruct (wf_cache st W (u8 b)) as [Z0|Hh]; [lia| |contradiction].
    split; [exact Z0|].
    intros j Hj. cbn [emitted indexValues]. rewrite Z0.
    change (color_hash [0; 0; 0; 0]) with 0.
    apply slot_splice; [apply W|reflexivity|lia|lia].
Qed.

(** INDEX 0 on the empty cache of a 1x1 image. *)
Lemma index_cache_write_witness :
  exists st',
    step (state_after [113; 111; 105; 102; 0; 0; 0; 1; 0; 0; 0; 1; 4; 0])
         (byte_of 0) = Ok st' /\
    lastPixel st' = [0; 0; 0; 0] /\
    indexValues st' = repeat 0 256.
Proof.
  assert (H0 : reachable (state_after [113; 111; 105; 102; 0; 0; 0; 1;
                                       0; 0; 0; 1; 4; 0]))
    by apply state_after_reachable.
  assert (H1 : pixels (state_after [113; 111; 105; 102; 0; 0; 0; 1;
                                    0; 0; 0; 1; 4; 0]) = Some (repeat 0 4))
    by (vm_compute; reflexivity).
  assert (H2 : pixelOffset (state_after [113; 111; 105; 102; 0; 0; 0; 1;
                                         0; 0; 0; 1; 4; 0])
               < TA.length (repeat 0 4))
    by (vm_compute; reflexivity).
  assert (H3 : op (state_after [113; 111; 105; 102; 0; 0; 0; 1;
                                0; 0; 0; 1; 4; 0]) = OP_NONE_ID)
    by (vm_compute; reflexivity).
  assert (H4 : u8 (byte_of 0) < 64) by (vm_compute; reflexivity).
  destruct (index_cache_write _ _ _ H0 H1 H2 H3 H4)
    as (st' & E & L & Same & _).
  exists st'. split; [exact E|]. split.
  - rewrite L. vm_compute. reflexivity.
  - rewrite Same; vm_compute; reflexivity.
Defined.

(** C4 as stated fails when the selected slot was never written: after
    RGBA (64,0,0,0), which is stored in slot 0, INDEX 1 reads the empty
    slot 1 and its store overwrites slot 0 with (0,0,0,0). *)
Lemma index_can_change_the_cache :
  let st := state_after [113; 111; 105; 102; 0; 0; 0; 2; 0; 0; 0; 1; 4; 0;
                         255; 64; 0; 0; 0] in
  reachable st /\ current_opcode st (u8 (byte_of 1)) = OP_INDEX_ID /\
  slot (indexValues st) 0 = [64; 0; 0; 0] /\
  exists st',
    step st (byte_of 1) = Ok st' /\
    slot (indexValues st') 0 = [0; 0; 0; 0] /\
    indexValues st' <> indexValues st.
Proof.
  intros st. split; [apply state_after_reachable|].
  split; [vm_compute; reflexivity|]. split; [vm_compute; reflexivity|].
  exists (state_after [113; 111; 105; 102; 0; 0; 0; 2; 0; 0; 0; 1; 4; 0;
                       255; 64; 0; 0; 0; 1]).
  split; [vm_compute; reflexivity|]. split; [vm_compute; reflexivity|].
  vm_compute. discriminate.
Qed.

(** ** The header *)

Lemma lor_disjoint (hi lo k : Z) :
  0 <= k -> 0 <= lo < 2 ^ k -> Z.lor (hi * 2 ^ k) lo = hi * 2 ^ k + lo.
Proof.
  intros Hk Hlo.
  assert (D : Z.land (hi * 2 ^ k) lo = 0).
  { apply Z.bits_inj'. intros n Hn. rewrite Z.land_spec, Z.bits_0.
    destruct (Z.lt_ge_cases n k) as [L|L].
    - rewrite Z.mul_pow2_bits_low by lia. reflexivity.
    - destruct (Z.eq_dec lo 0) as [->|N].
      + rewrite Z.bits_0. apply andb_false_r.
      + rewrite (Z.bits_above_log2 lo n); [apply andb_false_r|lia|].
        apply Z.lt_le_trans with k; [|exact L].
        apply Z.log2_lt_pow2; lia. }
  pose proof (Z.add_lor_land (hi * 2 ^ k) lo) as E. rewrite D in E. lia.
Qed.

(** The four header bytes of a dimension are joined into the signed
    32-bit reading of the big-endian number they spell. *)
Lemma join_be32 (b0 b1 b2 b3 : Z) :
  0 <= b0 <= 255 -> 0 <= b1 <= 255 -> 0 <= b2 <= 255 -> 0 <= b3 <= 255 ->
  JS.or (JS.or (JS.or (JS.shl b0 24) (JS.shl b1 16)) (JS.shl b2 8)) b3
  = JS.to_int32 (b0 * 2 ^ 24 + b1 * 2 ^ 16 + b2 * 2 ^ 8 + b3).
Proof.
  intros H0 H1 H2 H3. unfold JS.or, JS.shl.
  rewrite (to_int32_small b0), (to_int32_small b1), (to_int32_small b2),
    (to_int32_small b3) by lia.
  rewrite !Z.shiftl_mul_pow2 by lia.
  rewrite !(to_int32_small (b1 * 2 ^ 16)), !(to_int32_small (b2 * 2 ^ 8))
    by lia.
  assert (E : exists c, - 128 <= c <= 127 /\
                JS.to_int32 (b0 * 2 ^ 24) = c * 2 ^ 24 /\
                JS.to_int32 (b0 * 2 ^ 24 + b1 * 2 ^ 16 + b2 * 2 ^ 8 + b3)
                = c * 2 ^ 24 + b1 * 2 ^ 16 + b2 * 2 ^ 8 + b3).
  { destruct (Z.lt_ge_cases b0 128).
    - exists b0. rewrite !to_int32_small by lia. lia.
    - exists (b0 - 256). split; [lia|].
      unfold JS.to_int32.
      rewrite (Z.mod_small (b0 * 2 ^ 24)) by lia.
      rewrite (Z.mod_small (b0 * 2 ^ 24 + b1 * 2 ^ 16 + b2 * 2 ^ 8 + b3))
        by lia.
      destruct (Z.leb_spec (2 ^ 31) (b0 * 2 ^ 24)); [|lia].
      destruct (Z.leb_spec (2 ^ 31)
                  (b0 * 2 ^ 24 + b1 * 2 ^ 16 + b2 * 2 ^ 8 + b3)); lia. }
  destruct E as (c & Hc & -> & ->).
  rewrite !(to_int32_small (c * 2 ^ 24)) by lia.
  rewrite (lor_disjoint c (b1 * 2 ^ 16) 24) by lia.
  rewrite (to_int32_small (c * 2 ^ 24 + b1 * 2 ^ 16)) by lia.
  replace (c * 2 ^ 24 + b1 * 2 ^ 16) with ((c * 2 ^ 8 + b1) * 2 ^ 16) by lia.
  rewrite (lor_disjoint _ (b2 * 2 ^ 8) 16) by lia.
  rewrite (to_int32_small ((c * 2 ^ 8 + b1) * 2 ^ 16 + b2 * 2 ^ 8)) by lia.
  replace ((c * 2 ^ 8 + b1) * 2 ^ 16 + b2 * 2 ^ 8)
    with ((c * 2 ^ 16 + b1 * 2 ^ 8 + b2) * 2 ^ 8) by lia.
  rewrite (lor_disjoint _ b3 8) by lia. lia.
Qed.

Lemma be32_sum (n : Z) :
  0 <= n < 2 ^ 32 ->
  ((n / 2 ^ 24) mod 256) * 2 ^ 24 + ((n / 2 ^ 16) mod 256) * 2 ^ 16
  + ((n / 2 ^ 8) mod 256) * 2 ^ 8 + n mod 256 = n.
Proof.
  intros H.
  assert (E2 : n / 2 ^ 16 = n / 2 ^ 8 / 256)
    by (rewrite Z.div_div by lia; reflexivity).
  assert (E3 : n / 2 ^ 24 = n / 2 ^ 16 / 256)
    by (rewrite Z.div_div by lia; reflexivity).
  assert (S3 : n / 2 ^ 24 < 256)
    by (apply Z.div_lt_upper_bound; lia).
  assert (P3 : 0 <= n / 2 ^ 24) by (apply Z.div_pos; lia).
  rewrite (Z.mod_small (n / 2 ^ 24)) by lia.
  rewrite (Z.mod_eq (n / 2 ^ 16)), (Z.mod_eq (n / 2 ^ 8)), (Z.mod_eq n 256)
    by lia.
  rewrite <- E3, <- E2. change (n / 256) with (n / 2 ^ 8). lia.
Qed.

Lemma byte_of_mod (x : Z) : 0 <= x mod 256 <= 255.
Proof. pose proof (Z.mod_pos_bound x 256). lia. Qed.

(** What the parser returns on the serialization of a valid header: the
    channels and colorspace as written, the width and height read back as
    signed 32-bit integers. *)
Lemma parse_serialize (h : Header) :
  valid_header h ->
  parseQoiHeaderBytes (serializeQoiHeader h)
  = Ok (mkHeader (JS.to_int32 (h_width h)) (JS.to_int32 (h_height h))
          (h_channels h) (h_colorspace h)).
Proof.
  intros (Hw & Hh & Hc & Hs).
  unfold parseQoiHeaderBytes, serializeQoiHeader, be32, QOI_HEADER_MAGIC.
  cbn [app]. change (every_magic _ 0 _) with true. cbn [negb].
  unfold TA.get.
  change (Z.to_nat 4) with 4%nat. change (Z.to_nat 5) with 5%nat.
  change (Z.to_nat 6) with 6%nat. change (Z.to_nat 7) with 7%nat.
  change (Z.to_nat 8) with 8%nat. change (Z.to_nat 9) with 9%nat.
  change (Z.to_nat 10) with 10%nat. change (Z.to_nat 11) with 11%nat.
  change (Z.to_nat 12) with 12%nat. change (Z.to_nat 13) with 13%nat.
  cbn [nth].
  rewrite !join_be32 by apply byte_of_mod.
  rewrite !be32_sum by assumption.
  assert (I : includes SUPPORTED_CHANNEL_MODES (h_channels h) = true)
    by (destruct Hc as [-> | ->]; reflexivity).
  rewrite I. reflexivity.
Qed.

(** The round trip holds for the dimensions below 2^31. *)
Lemma parse_serialize_below_2_31 (h : Header) :
  valid_header h -> h_width h < 2 ^ 31 -> h_height h < 2 ^ 31 ->
  parseQoiHeaderBytes (serializeQoiHeader h) = Ok h.
Proof.
  intros V Hw Hh. rewrite parse_serialize by exact V.
  destruct V as (Vw & Vh & _).
  rewrite !to_int32_small by lia. destruct h; reflexivity.
Qed.

(** C5 fails on the code at the width 2^31: the header is valid and its
    serialization has the width bytes 0x80 0x00 0x00 0x00, but the parser
    returns the width -2147483648, because [<<] and [|] work on signed
    32-bit integers. *)
Theorem parse_reads_width_as_signed :
  valid_header (mkHeader (2 ^ 31) 1 4 0) /\
  serializeQoiHeader (mkHeader (2 ^ 31) 1 4 0)
  = [113; 111; 105; 102; 128; 0; 0; 0; 0; 0; 0; 1; 4; 0] /\
  parseQoiHeaderBytes (serializeQoiHeader (mkHeader (2 ^ 31) 1 4 0))
  = Ok (mkHeader (- 2 ^ 31) 1 4 0).
Proof.
  split; [|split; reflexivity].
  unfold valid_header. cbn [h_width h_height h_channels h_colorspace].
  repeat split; lia.
Qed.

(** The parser never raises the colorspace error, whatever the buffer. *)
Lemma parse_never_rejects_colorspace (buffer : list Z) :
  parseQoiHeaderBytes buffer <> Err UnsupportedColorspaceMode.
Proof.
  unfold parseQoiHeaderBytes, truthy_array.
  destruct (negb (every_magic _ _ _)); [discriminate|].
  destruct (negb (includes _ _)); discriminate.
Qed.

(** C2 fails on the code: a header whose colorspace byte is any value
    [c] (2 to 255 included) is accepted and the value is returned as the
    colorspace, because the guard tests the array of supported modes
    itself, which is always truthy, and not whether it includes [c]. *)
Theorem colorspace_byte_is_not_checked (c : byte) :
  parseQoiHeaderBytes
    [113; 111; 105; 102; 0; 0; 0; 1; 0; 0; 0; 1; 4; u8 c]
  = Ok (mkHeader 1 1 4 (u8 c)).
Proof. reflexivity. Qed.

(** ** The end of the stream *)

(** How far the header is read after a run of the byte loop. *)
Lemma header_progress_offset :
  forall bs st, run_bytes init bs = Ok st ->
    wf st /\
    ((seenHeader st = false /\
      headerBufferOffset st = Z.of_nat (List.length bs)) \/
     (seenHeader st = true /\ 14 <= Z.of_nat (List.length bs))).
Proof.
  apply (run_bytes_ind
           (fun bs st =>
              wf st /\
              ((seenHeader st = false /\
                headerBufferOffset st = Z.of_nat (List.length bs)) \/
               (seenHeader st = true /\ 14 <= Z.of_nat (List.length bs))))).
  - split; [exact init_wf|]. left. split; reflexivity.
  - intros bs st b st' _ (W & H) S.
    split; [exact (step_wf st st' b W S)|].
    rewrite length_app. cbn [List.length].
    destruct H as [(U & E)|(U & E)].
    + destruct (wf_unseen st W U) as (_ & _ & _ & _ & Hb & _).
      unfold step in S. rewrite U in S. cbn [negb] in S.
      unfold header_byte in S.
      destruct (Z.eqb_spec (headerBufferOffset st + 1) 14) as [E14|E14];
        cbn [negb] in S.
      * destruct (parseQoiHeaderBytes _) as [h|e]; [|discriminate].
        cbn [bind] in S.
        destruct (TA.make _) as [px|e]; [|discriminate].
        cbn [bind] in S. injection S as <-. right.
        cbn [seenHeader]. split; [reflexivity|lia].
      * injection S as <-. left.
        cbn [seenHeader headerBufferOffset]. split; [reflexivity|lia].
    + right. split; [|lia].
      exact (proj1 (step_keeps_header st st' b W U S)).
Qed.

Lemma header_progress (bs : list byte) (st : State) :
  run_bytes init bs = Ok st ->
  wf st /\
  ((seenHeader st = false /\ Z.of_nat (List.length bs) < 14) \/
   (seenHeader st = true /\ 14 <= Z.of_nat (List.length bs))).
Proof.
  intros R. destruct (header_progress_offset bs st R) as (W & G).
  split; [exact W|].
  destruct G as [(U & E)|(U & E)]; [left|right]; split; try assumption.
  destruct (wf_unseen st W U) as (_ & _ & _ & _ & Hb & _). lia.
Qed.

(** C1, as the code has it.  When the source signals the end and no byte
    has made the decoder throw, the session returns normally, wherever
    the stream stopped, with the variables as they are at that point:
    width, height and pixels undefined when fewer than 14 bytes were
    read; otherwise the width and height of the header and the pixel
    buffer of [width * height * 4] entries as filled so far, the entries
    from the write offset on still 0.  The end of the stream itself
    raises no error. *)
Theorem end_of_stream_returns_the_state
    (stream : list (list byte)) (st : State) :
  run_chunks init stream = Ok st ->
  getQoiPixelData stream = Ok (mkOutput (width st) (height st) (pixels st)) /\
  (Z.of_nat (List.length (concat stream)) < 14 ->
   width st = None /\ height st = None /\ pixels st = None) /\
  (14 <= Z.of_nat (List.length (concat stream)) ->
   exists w h px,
     width st = Some w /\ height st = Some h /\ pixels st = Some px /\
     TA.length px = w * h * 4 /\
     forall i, pixelOffset st <= i -> TA.get px i = 0).
Proof.
  intros R. split; [|split].
  - unfold getQoiPixelData. rewrite R. reflexivity.
  - intros L. rewrite run_chunks_concat in R.
    destruct (header_progress _ _ R) as (W & [(U & _)|(_ & G)]); [|lia].
    destruct (wf_unseen st W U) as (Hw & Hh & Hp & _). tauto.
  - intros L. rewrite run_chunks_concat in R.
    destruct (header_progress _ _ R) as (W & [(_ & G)|(S & _)]); [lia|].
    destruct (wf_seen st W S) as (w & h & px & Hw & Hh & Hp & Hl & _ & _ & Hz).
    exists w, h, px. repeat split; try assumption.
    intros i Hi. unfold TA.get. apply Hz.
    pose proof (wf_offset st W). lia.
Qed.

(** A 1x3 image whose stream stops after the first pixel. *)
Lemma end_of_stream_returns_the_state_witness :
  getQoiPixelData
    [bytes_of [113; 111; 105; 102; 0; 0; 0; 1; 0; 0; 0; 3; 3; 0];
     bytes_of [254; 100; 100; 100]]
  = Ok (mkOutput (Some 1) (Some 3)
          (Some [100; 100; 100; 255; 0; 0; 0; 0; 0; 0; 0; 0])).
Proof.
  assert (R : run_chunks init
                [bytes_of [113; 111; 105; 102; 0; 0; 0; 1; 0; 0; 0; 3; 3; 0];
                 bytes_of [254; 100; 100; 100]]
              = Ok (state_after [113; 111; 105; 102; 0; 0; 0; 1; 0; 0; 0; 3;
                                 3; 0; 254; 100; 100; 100]))
    by (vm_compute; reflexivity).
  destruct (end_of_stream_returns_the_state _ _ R) as [E _].
  rewrite E. vm_compute. reflexivity.
Defined.

(** C1 as stated fails: the session returns normally, with no error, on
    the empty stream, on a stream that stops inside the header, on one
    that stops before the pixels are complete (the partial buffer is
    returned) and on one that stops inside the trailer. *)
Lemma end_of_stream_is_not_an_error :
  getQoiPixelData [] = Ok (mkOutput None None None) /\
  getQoiPixelData [bytes_of [113; 111; 105; 102; 0; 0; 0]]
  = Ok (mkOutput None None None) /\
  getQoiPixelData
    [bytes_of [113; 111; 105; 102; 0; 0; 0; 1; 0; 0; 0; 3; 3; 0;
               254; 100; 100; 100]]
  = Ok (mkOutput (Some 1) (Some 3)
          (Some [100; 100; 100; 255; 0; 0; 0; 0; 0; 0; 0; 0])) /\
  getQoiPixelData
    [bytes_of [113; 111; 105; 102; 0; 0; 0; 1; 0; 0; 0; 1; 4; 0;
               255; 10; 20; 30; 255; 0; 0; 0]]
  = Ok (mkOutput (Some 1) (Some 1) (Some [10; 20; 30; 255])).
Proof. repeat split; vm_compute; reflexivity. Qed.

(** * Further properties of the decoder *)

(** ** Reading the header *)

Lemma reading_header_nil : reading_header [] = init.
Proof. reflexivity. Qed.

Lemma u8_to_uint8 (b : byte) : TA.to_uint8 (u8 b) = u8 b.
Proof. unfold TA.to_uint8. pose proof (u8_range b). apply Z.mod_small. lia. Qed.

Lemma header_buffer_put (bs : list byte) (b : byte) :
  (List.length bs < 14)%nat ->
  TA.put TA.to_uint8 (map u8 bs ++ repeat 0 (14 - List.length bs))
    (Z.of_nat (List.length bs)) (u8 b)
  = map u8 (bs ++ [b]) ++ repeat 0 (14 - List.length (bs ++ [b])).
Proof.
  intros H.
  assert (Lm : List.length (map u8 bs) = List.length bs) by apply length_map.
  rewrite put_splice.
  2:{ unfold TA.length. rewrite length_app, Lm, repeat_length. lia. }
  unfold splice. rewrite Nat2Z.id, u8_to_uint8.
  rewrite firstn_app, <- Lm, firstn_all, Nat.sub_diag. cbn [firstn].
  rewrite app_nil_r, skipn_app, skipn_all2 by (cbn [List.length]; lia).
  cbn [List.length app].
  replace (List.length (map u8 bs) + 1 - List.length (map u8 bs))%nat
    with 1%nat by lia.
  rewrite Lm, length_app. cbn [List.length].
  replace (14 - List.length bs)%nat with (S (14 - (List.length bs + 1)))
    by lia.
  cbn [repeat skipn]. rewrite map_app, <- app_assoc. reflexivity.
Qed.

(** A header byte before the 14th is only stored. *)
Lemma step_reading (bs : list byte) (b : byte) :
  (List.length bs < 13)%nat ->
  step (reading_header bs) b = Ok (reading_header (bs ++ [b])).
Proof.
  intros H. unfold step, header_byte.
  cbn [reading_header seenHeader negb headerBuffer headerBufferOffset
       width height channels colorspace pixels pixelOffset lastPixel
       indexValues op opBuffer opOffset].
  destruct (Z.eqb_spec (Z.of_nat (List.length bs) + 1) 14); [lia|].
  cbn [negb]. rewrite header_buffer_put by lia.
  unfold reading_header. do 2 f_equal.
  rewrite length_app. cbn [List.length]. lia.
Qed.

(** The 14th header byte: the header is parsed and [pixels] allocated. *)
Lemma step_reading_last (bs : list byte) (b : byte) :
  List.length bs = 13%nat ->
  step (reading_header bs) b =
    (h <- parseQoiHeaderBytes (map u8 (bs ++ [b])) ;;
     px <- TA.make (h_width h * h_height h * 4) ;;
     Ok (after_header (bs ++ [b]) h px)).
Proof.
  intros H. unfold step, header_byte.
  cbn [reading_header seenHeader negb headerBuffer headerBufferOffset
       width height channels colorspace pixels pixelOffset lastPixel
       indexValues op opBuffer opOffset].
  destruct (Z.eqb_spec (Z.of_nat (List.length bs) + 1) 14); [|lia].
  cbn [negb]. rewrite header_buffer_put by lia.
  rewrite length_app, H. cbn [List.length Nat.add Nat.sub repeat].
  rewrite app_nil_r.
  destruct (parseQoiHeaderBytes _) as [h|e1]; [|reflexivity]. cbn [bind].
  destruct (TA.make _) as [px|e2]; [|reflexivity]. cbn [bind].
  reflexivity.
Qed.

Lemma run_reading (bs : list byte) :
  (List.length bs < 14)%nat -> run_bytes init bs = Ok (reading_header bs).
Proof.
  induction bs as [|b bs IH] using rev_ind; intros H.
  - reflexivity.
  - rewrite length_app in H. cbn [List.length] in H.
    rewrite run_bytes_snoc, IH by lia. cbn [bind].
    apply step_reading. lia.
Qed.

Lemma run_header (hb : list byte) :
  List.length hb = 14%nat ->
  run_bytes init hb =
    (h <- parseQoiHeaderBytes (map u8 hb) ;;
     px <- TA.make (h_width h * h_height h * 4) ;;
     Ok (after_header hb h px)).
Proof.
  intros H. destruct hb as [|b bs] using rev_ind; [discriminate|].
  rewrite length_app in H. cbn [List.length] in H.
  rewrite run_bytes_snoc, run_reading by lia. cbn [bind].
  apply step_reading_last. lia.
Qed.

Lemma every_magic_spec (buffer : list Z) :
  every_magic QOI_HEADER_MAGIC 0 buffer = true <->
  firstn 4 buffer = QOI_HEADER_MAGIC.
Proof.
  change (every_magic QOI_HEADER_MAGIC 0 buffer)
    with ((TA.get buffer 0 =? 113) && ((TA.get buffer 1 =? 111)
          && ((TA.get buffer 2 =? 105) && ((TA.get buffer 3 =? 102) && true)))).
  rewrite !andb_true_iff, !Z.eqb_eq. unfold QOI_HEADER_MAGIC.
  destruct buffer as [|a0 [|a1 [|a2 [|a3 rest]]]].
  - change (TA.get [] 0) with 0. split; [intros (H & _)|]; discriminate.
  - change (TA.get [a0] 1) with 0.
    split; [intros (_ & H & _)|]; discriminate.
  - change (TA.get [a0; a1] 2) with 0.
    split; [intros (_ & _ & H & _)|]; discriminate.
  - change (TA.get [a0; a1; a2] 3) with 0.
    split; [intros (_ & _ & _ & H & _)|]; discriminate.
  - change (TA.get (a0 :: a1 :: a2 :: a3 :: rest) 0) with a0.
    change (TA.get (a0 :: a1 :: a2 :: a3 :: rest) 1) with a1.
    change (TA.get (a0 :: a1 :: a2 :: a3 :: rest) 2) with a2.
    change (TA.get (a0 :: a1 :: a2 :: a3 :: rest) 3) with a3.
    cbn [firstn]. split.
    + intros (-> & -> & -> & -> & _). reflexivity.
    + intros H. injection H as -> -> -> ->. repeat split.
Qed.

Lemma parse_wrong_magic (buffer : list Z) :
  firstn 4 buffer <> QOI_HEADER_MAGIC ->
  parseQoiHeaderBytes buffer = Err HeaderMagicMismatch.
Proof.
  intros H. unfold parseQoiHeaderBytes.
  destruct (every_magic QOI_HEADER_MAGIC 0 buffer) eqn:E; [|reflexivity].
  apply every_magic_spec in E. contradiction.
Qed.

Lemma parse_wrong_channels (buffer : list Z) :
  firstn 4 buffer = QOI_HEADER_MAGIC ->
  TA.get buffer 12 <> 3 -> TA.get buffer 12 <> 4 ->
  parseQoiHeaderBytes buffer = Err UnsupportedChannelMode.
Proof.
  intros M H3 H4. unfold parseQoiHeaderBytes.
  rewrite (proj2 (every_magic_spec buffer) M). cbn [negb].
  unfold includes, SUPPORTED_CHANNEL_MODES, CHANNELS_RGB, CHANNELS_RGBA.
  cbn [existsb].
  destruct (Z.eqb_spec (TA.get buffer 12) 3); [contradiction|].
  destruct (Z.eqb_spec (TA.get buffer 12) 4); [contradiction|].
  reflexivity.
Qed.

(** X1. A stream of fewer than 14 bytes never makes the decoder throw,
    whatever the bytes are (a wrong magic included): the header is only
    examined when its 14th byte arrives, and the session returns with
    width, height and pixels undefined. *)
Theorem short_stream_returns_undefined (stream : list (list byte)) :
  (List.length (concat stream) < 14)%nat ->
  getQoiPixelData stream = Ok (mkOutput None None None).
Proof.
  intros H. unfold getQoiPixelData.
  rewrite run_chunks_concat, run_reading by exact H. reflexivity.
Qed.

Lemma short_stream_returns_undefined_witness :
  getQoiPixelData [bytes_of [1; 2; 3]; bytes_of [255; 255]]
  = Ok (mkOutput None None None).
Proof.
  apply short_stream_returns_undefined. cbn. lia.
Defined.

Lemma run_header_app (hb rest : list byte) :
  List.length hb = 14%nat ->
  run_bytes init (hb ++ rest) =
    (h <- parseQoiHeaderBytes (map u8 hb) ;;
     px <- TA.make (h_width h * h_height h * 4) ;;
     run_bytes (after_header hb h px) rest).
Proof.
  intros H. rewrite run_bytes_app, run_header by exact H.
  destruct (parseQoiHeaderBytes _) as [h|e1]; [|reflexivity]. cbn [bind].
  destruct (TA.make _) as [px|e2]; reflexivity.
Qed.

(** X2. A stream whose first four bytes are not "qoif" fails with the
    magic error as soon as 14 bytes have arrived, whatever the other
    header bytes are and whatever follows. *)
Theorem wrong_magic_fails (stream : list (list byte)) (hb rest : list byte) :
  concat stream = hb ++ rest -> List.length hb = 14%nat ->
  firstn 4 (map u8 hb) <> QOI_HEADER_MAGIC ->
  getQoiPixelData stream = Err HeaderMagicMismatch.
Proof.
  intros C L M. unfold getQoiPixelData.
  rewrite run_chunks_concat, C, run_header_app by exact L.
  rewrite parse_wrong_magic by exact M. reflexivity.
Qed.

Lemma wrong_magic_fails_witness :
  getQoiPixelData
    [bytes_of [113; 111; 105; 70; 0; 0; 0; 1]; bytes_of [0; 0; 0; 1; 9; 0; 7]]
  = Err HeaderMagicMismatch.
Proof.
  apply (wrong_magic_fails _
           (bytes_of [113; 111; 105; 70; 0; 0; 0; 1; 0; 0; 0; 1; 9; 0])
           (bytes_of [7])).
  - reflexivity.
  - reflexivity.
  - vm_compute. discriminate.
Defined.

(** X3. With the right magic, a channels byte (offset 12) other than 3
    or 4 fails with the channels error when the 14th byte arrives. *)
Theorem wrong_channels_fails (stream : list (list byte)) (hb rest : list byte) :
  concat stream = hb ++ rest -> List.length hb = 14%nat ->
  firstn 4 (map u8 hb) = QOI_HEADER_MAGIC ->
  TA.get (map u8 hb) 12 <> 3 -> TA.get (map u8 hb) 12 <> 4 ->
  getQoiPixelData stream = Err UnsupportedChannelMode.
Proof.
  intros C L M H3 H4. unfold getQoiPixelData.
  rewrite run_chunks_concat, C, run_header_app by exact L.
  rewrite parse_wrong_channels by assumption. reflexivity.
Qed.

Lemma wrong_channels_fails_witness :
  getQoiPixelData
    [bytes_of [113; 111; 105; 102; 0; 0; 0; 1; 0; 0; 0; 1; 5; 0; 7]]
  = Err UnsupportedChannelMode.
Proof.
  apply (wrong_channels_fails _
           (bytes_of [113; 111; 105; 102; 0; 0; 0; 1; 0; 0; 0; 1; 5; 0])
           (bytes_of [7])).
  - reflexivity.
  - reflexivity.
  - reflexivity.
  - vm_compute. discriminate.
  - vm_compute. discriminate.
Defined.

(** X4. When the parsed width and height have a negative product (one of
    them has its top bit set in the header and is read as negative, the
    other is positive), the allocation of the pixel buffer throws a
    RangeError when the 14th byte arrives. *)
Theorem negative_area_fails
    (stream : list (list byte)) (hb rest : list byte) (h : Header) :
  concat stream = hb ++ rest -> List.length hb = 14%nat ->
  parseQoiHeaderBytes (map u8 hb) = Ok h ->
  h_width h * h_height h < 0 ->
  getQoiPixelData stream = Err RangeError.
Proof.
  intros C L P N. unfold getQoiPixelData.
  rewrite run_chunks_concat, C, run_header_app by exact L.
  rewrite P. cbn [bind]. unfold TA.make.
  destruct (Z.ltb_spec (h_width h * h_height h * 4) 0); [reflexivity|lia].
Qed.

(** Width bytes 0x80 0 0 0 with height 1. *)
Lemma negative_area_fails_witness :
  getQoiPixelData
    [bytes_of [113; 111; 105; 102; 128; 0; 0; 0; 0; 0; 0; 1; 4; 0;
               255; 1; 2; 3; 4; 0; 0; 0; 0; 0; 0; 0; 1]]
  = Err RangeError.
Proof.
  apply (negative_area_fails _
           (bytes_of [113; 111; 105; 102; 128; 0; 0; 0; 0; 0; 0; 1; 4; 0])
           (bytes_of [255; 1; 2; 3; 4; 0; 0; 0; 0; 0; 0; 0; 1])
           (mkHeader (- 2 ^ 31) 1 4 0)).
  - reflexivity.
  - reflexivity.
  - reflexivity.
  - reflexivity.
Defined.

(** ** The trailer as a whole *)

Lemma step_trailer (st : State) (px : list Z) (b : byte) :
  seenHeader st = true -> pixels st = Some px ->
  TA.length px <= pixelOffset st ->
  step st b =
    let t := pixelOffset st - TA.length px in
    if ((t <? 7) && (u8 b =? 0)) || ((t =? 7) && (u8 b =? 1))
    then Ok (with_pixelOffset st (pixelOffset st + 1))
    else Err TrailerMismatch.
Proof.
  intros S P F. unfold step. rewrite S, P. cbn [negb].
  destruct (Z.leb_spec (TA.length px) (pixelOffset st)); [|lia].
  unfold trailer_byte. cbv zeta. by_range; reflexivity.
Qed.

Lemma with_pixelOffset_same (st : State) :
  with_pixelOffset st (pixelOffset st) = st.
Proof. destruct st; reflexivity. Qed.

Lemma run_trailer (tb : list byte) :
  forall (st : State) (px : list Z) (t : nat),
    seenHeader st = true -> pixels st = Some px ->
    pixelOffset st = TA.length px + Z.of_nat t -> (t <= 8)%nat ->
    run_bytes st tb =
      if is_prefix (map u8 tb) (skipn t trailer_bytes)
      then Ok (with_pixelOffset st
                 (pixelOffset st + Z.of_nat (List.length tb)))
      else Err TrailerMismatch.
Proof.
  induction tb as [|b tb IH]; intros st px t S P E T.
  - cbn [run_bytes map is_prefix List.length].
    rewrite Z.add_0_r, with_pixelOffset_same. reflexivity.
  - cbn [run_bytes map]. rewrite (step_trailer st px b) by (assumption || lia).
    cbv zeta.
    replace (pixelOffset st - TA.length px) with (Z.of_nat t) by lia.
    destruct (Z.eqb_spec (u8 b) 0) as [B0|B0];
      destruct (Z.eqb_spec (u8 b) 1) as [B1|B1]; try lia;
      do 9 (try destruct t as [|t]); try lia;
      cbn [Z.of_nat Pos.of_succ_nat Pos.succ Z.ltb Z.eqb Z.compare Pos.compare
           Pos.compare_cont Pos.eqb andb orb bind skipn trailer_bytes
           is_prefix];
      rewrite ?B0, ?B1; cbn [Z.eqb Pos.eqb andb];
      try (destruct (u8 b =? 0) eqn:Q0; [apply Z.eqb_eq in Q0; lia|]);
      try (destruct (u8 b =? 1) eqn:Q1; [apply Z.eqb_eq in Q1; lia|]);
      cbn [andb]; try reflexivity;
      match goal with
      | |- run_bytes (with_pixelOffset st ?o) tb = _ =>
          rewrite (IH (with_pixelOffset st o) px
                     (Z.to_nat (o - TA.length px)))
            by (try assumption; cbn [with_pixelOffset pixelOffset]; lia);
          replace (Z.to_nat (o - TA.length px)) with
            (Z.to_nat (pixelOffset st + 1 - TA.length px)) by reflexivity
      end.
    all: rewrite E;
      match goal with
      | |- context [Z.to_nat (?a + ?k + 1 - ?a)] =>
          replace (Z.to_nat (a + k + 1 - a)) with (Z.to_nat (k + 1)) by lia
      end;
      cbn [Z.of_nat Pos.of_succ_nat Pos.succ Z.add Pos.add Z.to_nat Pos.to_nat
           Pos.iter_op Nat.add skipn trailer_bytes];
      destruct (is_prefix _ _); [|reflexivity];
      cbn [with_pixelOffset pixelOffset List.length];
      unfold with_pixelOffset; cbn [seenHeader headerBuffer headerBufferOffset
        width height channels colorspace pixels pixelOffset lastPixel
        indexValues op opBuffer opOffset];
      do 2 f_equal; lia.
Qed.

(** X5. Once the pixel buffer is full, a run of further bytes is accepted
    exactly when it is a beginning of the end marker 0,0,0,0,0,0,0,1 (the
    whole marker included, nothing longer): then only the position
    advances, by the number of bytes; otherwise the decoder throws the
    trailer mismatch. *)
Theorem trailer_accepted_iff_prefix
    (st : State) (px : list Z) (tb : list byte) :
  reachable st -> pixels st = Some px -> pixelOffset st = TA.length px ->
  run_bytes st tb =
    if is_prefix (map u8 tb) trailer_bytes
    then Ok (with_pixelOffset st (pixelOffset st + Z.of_nat (List.length tb)))
    else Err TrailerMismatch.
Proof.
  intros R P E. destruct (reachable_pixels st px R P) as (_ & S).
  apply (run_trailer tb st px 0); try assumption; lia.
Qed.

(** The whole end marker after the only pixel of a 1x1 image. *)
Lemma trailer_accepted_iff_prefix_witness :
  let st := state_after [113; 111; 105; 102; 0; 0; 0; 1; 0; 0; 0; 1; 4; 0;
                         255; 10; 20; 30; 255] in
  run_bytes st (bytes_of [0; 0; 0; 0; 0; 0; 0; 1])
  = Ok (with_pixelOffset st 12).
Proof.
  intros st.
  assert (H0 : reachable st) by apply state_after_reachable.
  assert (H1 : pixels st = Some [10; 20; 30; 255]) by (vm_compute; reflexivity).
  assert (H2 : pixelOffset st = TA.length [10; 20; 30; 255])
    by (vm_compute; reflexivity).
  rewrite (trailer_accepted_iff_prefix st _ (bytes_of [0; 0; 0; 0; 0; 0; 0; 1])
             H0 H1 H2).
  vm_compute. reflexivity.
Defined.

(** X6. An image whose parsed width times height is 0 has no opcode
    stream: the pixel buffer is empty and every byte after the header is
    a trailer byte.  The session returns the empty buffer when the bytes
    after the header are a beginning of the end marker and throws the
    trailer mismatch otherwise. *)
Theorem zero_area_image
    (stream : list (list byte)) (hb tb : list byte) (h : Header) :
  concat stream = hb ++ tb -> List.length hb = 14%nat ->
  parseQoiHeaderBytes (map u8 hb) = Ok h ->
  h_width h * h_height h = 0 ->
  getQoiPixelData stream =
    if is_prefix (map u8 tb) trailer_bytes
    then Ok (mkOutput (Some (h_width h)) (Some (h_height h)) (Some []))
    else Err TrailerMismatch.
Proof.
  intros C L P A. unfold getQoiPixelData.
  rewrite run_chunks_concat, C, run_header_app by exact L.
  rewrite P. cbn [bind]. rewrite A. change (TA.make (0 * 4)) with (Ok (@nil Z)).
  cbn [bind].
  rewrite (run_trailer tb (after_header hb h []) [] 0)
    by (reflexivity || lia).
  change (skipn 0 trailer_bytes) with trailer_bytes.
  destruct (is_prefix _ _); reflexivity.
Qed.

(** Width 0, height 5; then the end marker, or an opcode byte. *)
Lemma zero_area_image_witness :
  getQoiPixelData
    [bytes_of [113; 111; 105; 102; 0; 0; 0; 0; 0; 0; 0; 5; 3; 1;
               0; 0; 0; 0; 0; 0; 0; 1]]
  = Ok (mkOutput (Some 0) (Some 5) (Some [])) /\
  getQoiPixelData
    [bytes_of [113; 111; 105; 102; 0; 0; 0; 0; 0; 0; 0; 5; 3; 1; 254]]
  = Err TrailerMismatch.
Proof.
  split.
  - apply (zero_area_image _
             (bytes_of [113; 111; 105; 102; 0; 0; 0; 0; 0; 0; 0; 5; 3; 1])
             (bytes_of [0; 0; 0; 0; 0; 0; 0; 1]) (mkHeader 0 5 3 1));
      reflexivity.
  - apply (zero_area_image _
             (bytes_of [113; 111; 105; 102; 0; 0; 0; 0; 0; 0; 0; 5; 3; 1])
             (bytes_of [254]) (mkHeader 0 5 3 1));
      reflexivity.
Defined.

(** ** RGB and RGBA as whole opcodes *)

Lemma put4_0 (conv : Z -> Z) (a b c d v : Z) :
  TA.put conv [a; b; c; d] 0 v = [conv v; b; c; d].
Proof. reflexivity. Qed.

Lemma put4_1 (conv : Z -> Z) (a b c d v : Z) :
  TA.put conv [a; b; c; d] 1 v = [a; conv v; c; d].
Proof. reflexivity. Qed.

Lemma put4_2 (conv : Z -> Z) (a b c d v : Z) :
  TA.put conv [a; b; c; d] 2 v = [a; b; conv v; d].
Proof. reflexivity. Qed.

Lemma put4_3 (conv : Z -> Z) (a b c d v : Z) :
  TA.put conv [a; b; c; d] 3 v = [a; b; c; conv v].
Proof. reflexivity. Qed.

Lemma clamp_u8 (b : byte) : TA.to_uint8_clamp (u8 b) = u8 b.
Proof. apply clamp_id, u8_range. Qed.

(** The opcode state after the tag and [k] data bytes of RGB or RGBA. *)
Lemma opcode_collect_wf (st : State) (o : OpId) (buf : list Z) (k : Z) :
  wf st -> seenHeader st = true -> List.length buf = 4%nat ->
  byte_values buf ->
  match o with
  | OP_RGB_ID => 1 <= k <= 3
  | OP_RGBA_ID => 1 <= k <= 4
  | _ => False
  end ->
  wf (with_op st o buf k).
Proof.
  intros W S L V H. apply with_op_wf; try assumption.
  destruct o; try contradiction; exact H.
Qed.

Lemma rgb_tag (st : State) (px : list Z) (b : byte) :
  wf st -> pixelOffset st + 4 <= TA.length px ->
  op st = OP_NONE_ID -> u8 b = 254 ->
  opcode_byte st px (u8 b) = Ok (with_op st OP_RGB_ID (opBuffer st) 1).
Proof.
  intros W F O T.
  rewrite opcode_rgb by (try assumption; left; split; assumption).
  pose proof (wf_op st W) as I. unfold op_inv in I. rewrite O in I.
  destruct I as [_ ->]. reflexivity.
Qed.

Lemma rgb_data (st : State) (px : list Z) (b : byte) (k : Z) :
  wf st -> pixelOffset st + 4 <= TA.length px ->
  op st = OP_RGB_ID -> opOffset st = k -> 1 <= k <= 2 ->
  opcode_byte st px (u8 b) =
    Ok (with_op st OP_RGB_ID
          (TA.put TA.to_uint8_clamp (opBuffer st) (k - 1) (u8 b)) (k + 1)).
Proof.
  intros W F O K R.
  rewrite opcode_rgb by (try assumption; now right). cbv zeta. rewrite K.
  destruct (Z.ltb_spec 0 k); [|lia].
  destruct (Z.leb_spec (k + 1) 3); [reflexivity|lia].
Qed.

Lemma rgb_last (st : State) (px : list Z) (b : byte) :
  wf st -> pixelOffset st + 4 <= TA.length px ->
  op st = OP_RGB_ID -> opOffset st = 3 ->
  opcode_byte st px (u8 b) =
    Ok (emitted st px 1
          (TA.put TA.to_uint8_clamp
             (TA.put TA.to_uint8_clamp (opBuffer st) 2 (u8 b)) 3
             (TA.get (lastPixel st) 3))).
Proof.
  intros W F O K.
  rewrite opcode_rgb by (try assumption; now right). cbv zeta. rewrite K.
  reflexivity.
Qed.

Lemma rgba_tag (st : State) (px : list Z) (b : byte) :
  wf st -> pixelOffset st + 4 <= TA.length px ->
  op st = OP_NONE_ID -> u8 b = 255 ->
  opcode_byte st px (u8 b) = Ok (with_op st OP_RGBA_ID (opBuffer st) 1).
Proof.
  intros W F O T.
  rewrite opcode_rgba by (try assumption; left; split; assumption).
  pose proof (wf_op st W) as I. unfold op_inv in I. rewrite O in I.
  destruct I as [_ ->]. reflexivity.
Qed.

Lemma rgba_data (st : State) (px : list Z) (b : byte) (k : Z) :
  wf st -> pixelOffset st + 4 <= TA.length px ->
  op st = OP_RGBA_ID -> opOffset st = k -> 1 <= k <= 3 ->
  opcode_byte st px (u8 b) =
    Ok (with_op st OP_RGBA_ID
          (TA.put TA.to_uint8_clamp (opBuffer st) (k - 1) (u8 b)) (k + 1)).
Proof.
  intros W F O K R.
  rewrite opcode_rgba by (try assumption; now right). cbv zeta. rewrite K.
  destruct (Z.ltb_spec 0 k); [|lia].
  destruct (Z.leb_spec (k + 1) 4); [reflexivity|lia].
Qed.

Lemma rgba_last (st : State) (px : list Z) (b : byte) :
  wf st -> pixelOffset st + 4 <= TA.length px ->
  op st = OP_RGBA_ID -> opOffset st = 4 ->
  opcode_byte st px (u8 b) =
    Ok (emitted st px 1 (TA.put TA.to_uint8_clamp (opBuffer st) 3 (u8 b))).
Proof.
  intros W F O K.
  rewrite opcode_rgba by (try assumption; now right). cbv zeta. rewrite K.
  reflexivity.
Qed.

(** A step inside a multi-byte opcode, from a state written with
    [with_op]. *)
Lemma step_with_op (st : State) (px : list Z) (o : OpId) (buf : list Z)
    (k : Z) (b : byte) :
  seenHeader st = true -> pixels st = Some px ->
  pixelOffset st < TA.length px ->
  step (with_op st o buf k) b = opcode_byte (with_op st o buf k) px (u8 b).
Proof. intros S P F. apply step_opcode; assumption. Qed.

Lemma with_op_with_op (st : State) (o o' : OpId) (buf buf' : list Z)
    (k k' : Z) :
  with_op (with_op st o buf k) o' buf' k' = with_op st o' buf' k'.
Proof. reflexivity. Qed.

Lemma emitted_with_op (st : State) (o : OpId) (buf : list Z) (k : Z)
    (px : list Z) (n : nat) (p : list Z) :
  emitted (with_op st o buf k) px n p = emitted st px n p.
Proof. reflexivity. Qed.

Lemma byte_values_4 (a b c d : Z) :
  0 <= a <= 255 -> 0 <= b <= 255 -> 0 <= c <= 255 -> 0 <= d <= 255 ->
  byte_values [a; b; c; d].
Proof.
  intros. unfold byte_values.
  repeat (apply Forall_cons; [assumption|]). apply Forall_nil.
Qed.

(** X7. An RGB opcode is four bytes: the tag 0xFE and three data bytes,
    which are taken as red, green and blue whatever their values (a data
    byte equal to a tag starts no opcode).  It emits one pixel with these
    colours and the alpha of the previous pixel, which becomes the
    previous pixel and is stored in the cache. *)
Theorem rgb_opcode_emits_pixel (st : State) (px : list Z) (r g b : byte) :
  reachable st -> pixels st = Some px -> pixelOffset st < TA.length px ->
  op st = OP_NONE_ID ->
  run_bytes st [Byte.xfe; r; g; b]
  = Ok (emitted st px 1 [u8 r; u8 g; u8 b; alpha st]).
Proof.
  intros R P F O.
  destruct (reachable_pixels st px R P) as (W & S).
  pose proof (wf_room st px W S P F) as F4.
  pose proof (four_bytes _ (wf_buf_len st W)) as B4.
  pose proof (byte_values_get (lastPixel st) 3 (wf_last_val st W)) as Va.
  pose proof (byte_values_get (opBuffer st) 0 (wf_buf_val st W)) as V0.
  pose proof (byte_values_get (opBuffer st) 1 (wf_buf_val st W)) as V1.
  pose proof (byte_values_get (opBuffer st) 2 (wf_buf_val st W)) as V2.
  pose proof (byte_values_get (opBuffer st) 3 (wf_buf_val st W)) as V3.
  pose proof (u8_range r) as Rr. pose proof (u8_range g) as Rg.
  pose proof (u8_range b) as Rb.
  remember (TA.get (opBuffer st) 0) as o0.
  remember (TA.get (opBuffer st) 1) as o1.
  remember (TA.get (opBuffer st) 2) as o2.
  remember (TA.get (opBuffer st) 3) as o3.
  cbn [run_bytes].
  rewrite (step_opcode st px Byte.xfe) by assumption.
  rewrite rgb_tag by (assumption || reflexivity). cbn [bind].
  rewrite B4.
  assert (W1 : wf (with_op st OP_RGB_ID [o0; o1; o2; o3] 1)).
  { apply opcode_collect_wf; try assumption; try reflexivity; try lia.
    now apply byte_values_4. }
  rewrite (step_with_op st px) by assumption.
  rewrite (rgb_data _ px r 1) by (assumption || reflexivity || lia).
  cbn [bind]. rewrite with_op_with_op.
  change (opBuffer (with_op st OP_RGB_ID [o0; o1; o2; o3] 1))
    with [o0; o1; o2; o3].
  change (1 - 1) with 0. change (1 + 1) with 2.
  rewrite put4_0, clamp_u8.
  assert (W2 : wf (with_op st OP_RGB_ID [u8 r; o1; o2; o3] 2)).
  { apply opcode_collect_wf; try assumption; try reflexivity; try lia.
    now apply byte_values_4. }
  rewrite (step_with_op st px) by assumption.
  rewrite (rgb_data _ px g 2) by (assumption || reflexivity || lia).
  cbn [bind]. rewrite with_op_with_op.
  change (opBuffer (with_op st OP_RGB_ID [u8 r; o1; o2; o3] 2))
    with [u8 r; o1; o2; o3].
  change (2 - 1) with 1. change (2 + 1) with 3.
  rewrite put4_1, clamp_u8.
  assert (W3 : wf (with_op st OP_RGB_ID [u8 r; u8 g; o2; o3] 3)).
  { apply opcode_collect_wf; try assumption; try reflexivity; try lia.
    now apply byte_values_4. }
  rewrite (step_with_op st px) by assumption.
  rewrite (rgb_last _ px b) by (assumption || reflexivity).
  cbn [bind]. rewrite emitted_with_op.
  change (opBuffer (with_op st OP_RGB_ID [u8 r; u8 g; o2; o3] 3))
    with [u8 r; u8 g; o2; o3].
  change (lastPixel (with_op st OP_RGB_ID [u8 r; u8 g; o2; o3] 3))
    with (lastPixel st).
  rewrite put4_2, put4_3, clamp_u8, (clamp_id _ Va). reflexivity.
Qed.

(** RGB (1,2,254) as the first pixel of a 1x3 image: the data byte 254 is
    the blue channel. *)
Lemma rgb_opcode_emits_pixel_witness :
  run_bytes
    (state_after [113; 111; 105; 102; 0; 0; 0; 1; 0; 0; 0; 3; 3; 0])
    [Byte.xfe; byte_of 1; byte_of 2; byte_of 254]
  = Ok (state_after [113; 111; 105; 102; 0; 0; 0; 1; 0; 0; 0; 3; 3; 0;
                     254; 1; 2; 254]).
Proof.
  assert (H0 : reachable (state_after [113; 111; 105; 102; 0; 0; 0; 1;
                                       0; 0; 0; 3; 3; 0]))
    by apply state_after_reachable.
  assert (H1 : pixels (state_after [113; 111; 105; 102; 0; 0; 0; 1;
                                    0; 0; 0; 3; 3; 0]) = Some (repeat 0 12))
    by (vm_compute; reflexivity).
  assert (H2 : pixelOffset (state_after [113; 111; 105; 102; 0; 0; 0; 1;
                                         0; 0; 0; 3; 3; 0])
               < TA.length (repeat 0 12))
    by (vm_compute; reflexivity).
  assert (H3 : op (state_after [113; 111; 105; 102; 0; 0; 0; 1;
                                0; 0; 0; 3; 3; 0]) = OP_NONE_ID)
    by (vm_compute; reflexivity).
  rewrite (rgb_opcode_emits_pixel _ _ (byte_of 1) (byte_of 2) (byte_of 254)
             H0 H1 H2 H3).
  vm_compute. reflexivity.
Defined.

(** X8. An RGBA opcode is five bytes: the tag 0xFF and four data bytes,
    taken as red, green, blue and alpha whatever their values.  It emits
    one pixel with these four channels, which becomes the previous pixel
    and is stored in the cache. *)
Theorem rgba_opcode_emits_pixel (st : State) (px : list Z) (r g b a : byte) :
  reachable st -> pixels st = Some px -> pixelOffset st < TA.length px ->
  op st = OP_NONE_ID ->
  run_bytes st [Byte.xff; r; g; b; a]
  = Ok (emitted st px 1 [u8 r; u8 g; u8 b; u8 a]).
Proof.
  intros R P F O.
  destruct (reachable_pixels st px R P) as (W & S).
  pose proof (wf_room st px W S P F) as F4.
  pose proof (four_bytes _ (wf_buf_len st W)) as B4.
  pose proof (byte_values_get (opBuffer st) 0 (wf_buf_val st W)) as V0.
  pose proof (byte_values_get (opBuffer st) 1 (wf_buf_val st W)) as V1.
  pose proof (byte_values_get (opBuffer st) 2 (wf_buf_val st W)) as V2.
  pose proof (byte_values_get (opBuffer st) 3 (wf_buf_val st W)) as V3.
  pose proof (u8_range r) as Rr. pose proof (u8_range g) as Rg.
  pose proof (u8_range b) as Rb.
  remember (TA.get (opBuffer st) 0) as o0.
  remember (TA.get (opBuffer st) 1) as o1.
  remember (TA.get (opBuffer st) 2) as o2.
  remember (TA.get (opBuffer st) 3) as o3.
  cbn [run_bytes].
  rewrite (step_opcode st px Byte.xff) by assumption.
  rewrite rgba_tag by (assumption || reflexivity). cbn [bind].
  rewrite B4.
  assert (W1 : wf (with_op st OP_RGBA_ID [o0; o1; o2; o3] 1)).
  { apply opcode_collect_wf; try assumption; try reflexivity; try lia.
    now apply byte_values_4. }
  rewrite (step_with_op st px) by assumption.
  rewrite (rgba_data _ px r 1) by (assumption || reflexivity || lia).
  cbn [bind]. rewrite with_op_with_op.
  change (opBuffer (with_op st OP_RGBA_ID [o0; o1; o2; o3] 1))
    with [o0; o1; o2; o3].
  change (1 - 1) with 0. change (1 + 1) with 2.
  rewrite put4_0, clamp_u8.
  assert (W2 : wf (with_op st OP_RGBA_ID [u8 r; o1; o2; o3] 2)).
  { apply opcode_collect_wf; try assumption; try reflexivity; try lia.
    now apply byte_values_4. }
  rewrite (step_with_op st px) by assumption.
  rewrite (rgba_data _ px g 2) by (assumption || reflexivity || lia).
  cbn [bind]. rewrite with_op_with_op.
  change (opBuffer (with_op st OP_RGBA_ID [u8 r; o1; o2; o3] 2))
    with [u8 r; o1; o2; o3].
  change (2 - 1) with 1. change (2 + 1) with 3.
  rewrite put4_1, clamp_u8.
  assert (W3 : wf (with_op st OP_RGBA_ID [u8 r; u8 g; o2; o3] 3)).
  { apply opcode_collect_wf; try assumption; try reflexivity; try lia.
    now apply byte_values_4. }
  rewrite (step_with_op st px) by assumption.
  rewrite (rgba_data _ px b 3) by (assumption || reflexivity || lia).
  cbn [bind]. rewrite with_op_with_op.
  change (opBuffer (with_op st OP_RGBA_ID [u8 r; u8 g; o2; o3] 3))
    with [u8 r; u8 g; o2; o3].
  change (3 - 1) with 2. change (3 + 1) with 4.
  rewrite put4_2, clamp_u8.
  assert (W4 : wf (with_op st OP_RGBA_ID [u8 r; u8 g; u8 b; o3] 4)).
  { apply opcode_collect_wf; try assumption; try reflexivity; try lia.
    now apply byte_values_4. }
  rewrite (step_with_op st px) by assumption.
  rewrite (rgba_last _ px a) by (assumption || reflexivity).
  cbn [bind]. rewrite emitted_with_op.
  change (opBuffer (with_op st OP_RGBA_ID [u8 r; u8 g; u8 b; o3] 4))
    with [u8 r; u8 g; u8 b; o3].
  rewrite put4_3, clamp_u8. reflexivity.
Qed.

(** RGBA (255,254,3,0) as the first pixel of a 1x3 image with three
    channels declared: the data bytes 255 and 254 are colours and the
    alpha becomes 0. *)
Lemma rgba_opcode_emits_pixel_witness :
  run_bytes
    (state_after [113; 111; 105; 102; 0; 0; 0; 1; 0; 0; 0; 3; 3; 0])
    [Byte.xff; byte_of 255; byte_of 254; byte_of 3; byte_of 0]
  = Ok (state_after [113; 111; 105; 102; 0; 0; 0; 1; 0; 0; 0; 3; 3; 0;
                     255; 255; 254; 3; 0]).
Proof.
  assert (H0 : reachable (state_after [113; 111; 105; 102; 0; 0; 0; 1;
                                       0; 0; 0; 3; 3; 0]))
    by apply state_after_reachable.
  assert (H1 : pixels (state_after [113; 111; 105; 102; 0; 0; 0; 1;
                                    0; 0; 0; 3; 3; 0]) = Some (repeat 0 12))
    by (vm_compute; reflexivity).
  assert (H2 : pixelOffset (state_after [113; 111; 105; 102; 0; 0; 0; 1;
                                         0; 0; 0; 3; 3; 0])
               < TA.length (repeat 0 12))
    by (vm_compute; reflexivity).
  assert (H3 : op (state_after [113; 111; 105; 102; 0; 0; 0; 1;
                                0; 0; 0; 3; 3; 0]) = OP_NONE_ID)
    by (vm_compute; reflexivity).
  rewrite (rgba_opcode_emits_pixel _ _ (byte_of 255) (byte_of 254)
             (byte_of 3) (byte_of 0) H0 H1 H2 H3).
  vm_compute. reflexivity.
Defined.

(** ** The cache as a table *)

Lemma emitted_slot (st : State) (px : list Z) (n : nat) (p : list Z) (j : Z) :
  wf st -> List.length p = 4%nat -> byte_values p -> 0 <= j < 64 ->
  slot (indexValues (emitted st px n p)) j =
    if j =? color_hash p then p else slot (indexValues st) j.
Proof.
  intros W Lp Vp Hj. cbn [emitted indexValues].
  apply slot_splice; try assumption; [apply W|].
  now apply color_hash_range.
Qed.

(** What a step that completes an opcode leaves behind. *)
Lemma completed_opcode (st st' : State) (px : list Z) (b : byte) :
  wf st -> seenHeader st = true -> pixels st = Some px ->
  pixelOffset st < TA.length px ->
  step st b = Ok st' -> pixelOffset st < pixelOffset st' ->
  exists n p,
    st' = emitted st px n p /\ (0 < n)%nat /\ List.length p = 4%nat /\
    byte_values p /\ pixelOffset st + 4 * Z.of_nat n <= TA.length px.
Proof.
  intros W S P F R G.
  pose proof (step_wf st st' b W R) as W'.
  rewrite (step_opcode st px b) in R by assumption.
  destruct (opcode_byte_shape st st' px b W S P F R)
    as [(o & buf & off & ->)|(n & p & -> & Hn & Lp & Fn)].
  - cbn [with_op pixelOffset] in G. lia.
  - exists n, p. repeat split; try assumption.
    exact (wf_last_val _ W').
Qed.

(** X9. The cache is a table keyed by the hash of the pixel: a step that
    completes an opcode stores the new previous pixel in the slot of its
    hash and leaves the other 63 slots as they were. *)
Theorem completed_opcode_updates_one_slot
    (st st' : State) (px : list Z) (b : byte) :
  reachable st -> pixels st = Some px -> pixelOffset st < TA.length px ->
  step st b = Ok st' -> pixelOffset st < pixelOffset st' ->
  0 <= color_hash (lastPixel st') < 64 /\
  slot (indexValues st') (color_hash (lastPixel st')) = lastPixel st' /\
  forall j, 0 <= j < 64 -> j <> color_hash (lastPixel st') ->
    slot (indexValues st') j = slot (indexValues st) j.
Proof.
  intros R P F E G.
  destruct (reachable_pixels st px R P) as (W & S).
  destruct (completed_opcode st st' px b W S P F E G)
    as (n & p & -> & Hn & Lp & Vp & Fn).
  pose proof (color_hash_range p Vp) as Hc.
  cbn [emitted lastPixel]. split; [exact Hc|]. split.
  - rewrite emitted_slot by assumption.
    now rewrite Z.eqb_refl.
  - intros j Hj N. rewrite emitted_slot by assumption.
    destruct (Z.eqb_spec j (color_hash p)); [contradiction|reflexivity].
Qed.

(** DIFF on the first pixel of a 1x3 image: (254,0,0,255) goes to slot
    (254*3 + 255*11) mod 64 = 47. *)
Lemma completed_opcode_updates_one_slot_witness :
  let st := state_after [113; 111; 105; 102; 0; 0; 0; 1; 0; 0; 0; 3; 4; 0] in
  let st' :=
    state_after [113; 111; 105; 102; 0; 0; 0; 1; 0; 0; 0; 3; 4; 0; 74] in
  color_hash (lastPixel st') = 47 /\
  slot (indexValues st') 47 = [254; 0; 0; 255] /\
  slot (indexValues st') 0 = slot (indexValues st) 0.
Proof.
  intros st st'.
  assert (H0 : reachable st) by apply state_after_reachable.
  assert (H1 : pixels st = Some (repeat 0 12)) by (vm_compute; reflexivity).
  assert (H2 : pixelOffset st < TA.length (repeat 0 12))
    by (vm_compute; reflexivity).
  assert (H3 : step st (byte_of 74) = Ok st') by (vm_compute; reflexivity).
  assert (H4 : pixelOffset st < pixelOffset st') by (vm_compute; reflexivity).
  assert (H5 : color_hash (lastPixel st') = 47) by (vm_compute; reflexivity).
  destruct (completed_opcode_updates_one_slot st st' _ _ H0 H1 H2 H3 H4)
    as (_ & A & B).
  rewrite H5 in A, B. split; [exact H5|]. split.
  - rewrite A. vm_compute. reflexivity.
  - apply B; lia.
Defined.

(** X10. Storing and looking up agree: right after any opcode has
    emitted a pixel, the INDEX opcode whose index is the hash of that
    pixel emits the same pixel again, keeps it as the previous pixel and
    leaves the cache as it is. *)
Theorem index_of_hash_repeats_pixel
    (st st' : State) (px px' : list Z) (b i : byte) :
  reachable st -> pixels st = Some px -> pixelOffset st < TA.length px ->
  step st b = Ok st' -> pixelOffset st < pixelOffset st' ->
  pixels st' = Some px' -> pixelOffset st' < TA.length px' ->
  u8 i = color_hash (lastPixel st') ->
  exists st'',
    step st' i = Ok st'' /\
    lastPixel st'' = lastPixel st' /\
    indexValues st'' = indexValues st' /\
    pixelOffset st'' = pixelOffset st' + 4 /\
    pixels st'' =
      Some (splice px' (lastPixel st') (Z.to_nat (pixelOffset st'))).
Proof.
  intros R P F E G P' F' Hi.
  destruct (reachable_pixels st px R P) as (W & S).
  assert (R' : reachable st') by (eapply reachable_step; eassumption).
  destruct (reachable_pixels st' px' R' P') as (W' & S').
  pose proof (wf_room st' px' W' S' P' F') as F4.
  destruct (completed_opcode st st' px b W S P F E G)
    as (n & p & Est & Hn & Lp & Vp & Fn).
  pose proof (color_hash_range _ (wf_last_val st' W')) as Hc.
  assert (O' : op st' = OP_NONE_ID) by (rewrite Est; reflexivity).
  assert (Sl : slot (indexValues st') (u8 i) = lastPixel st').
  { rewrite Hi. rewrite Est at 1 2. cbn [emitted lastPixel].
    rewrite emitted_slot by (assumption || (rewrite Est in Hc; exact Hc)).
    rewrite Est. cbn [emitted lastPixel]. now rewrite Z.eqb_refl. }
  exists (emitted st' px' 1 (lastPixel st')).
  split; [|split; [reflexivity|split; [|split]]].
  - rewrite (step_opcode st' px' i) by assumption.
    rewrite opcode_index by (assumption || lia). now rewrite Sl.
  - cbn [emitted indexValues]. rewrite <- Sl at 1. rewrite <- Hi, slot_eq.
    apply splice_slice_same. rewrite (wf_index_len st' W'). lia.
  - cbn [emitted pixelOffset]. lia.
  - cbn [emitted pixels repeat concat]. now rewrite app_nil_r.
Qed.

(** RGB (100,100,100) then INDEX 17, the hash of (100,100,100,255), in a
    1x3 image. *)
Lemma index_of_hash_repeats_pixel_witness :
  exists st'',
    step (state_after [113; 111; 105; 102; 0; 0; 0; 1; 0; 0; 0; 3; 3; 0;
                       254; 100; 100; 100]) (byte_of 17) = Ok st'' /\
    lastPixel st'' = [100; 100; 100; 255] /\
    pixelOffset st'' = 8.
Proof.
  set (st := state_after [113; 111; 105; 102; 0; 0; 0; 1; 0; 0; 0; 3; 3; 0;
                          254; 100; 100]).
  set (st' := state_after [113; 111; 105; 102; 0; 0; 0; 1; 0; 0; 0; 3; 3; 0;
                           254; 100; 100; 100]).
  assert (H0 : reachable st) by apply state_after_reachable.
  assert (H1 : pixels st = Some (repeat 0 12)) by (vm_compute; reflexivity).
  assert (H2 : pixelOffset st < TA.length (repeat 0 12))
    by (vm_compute; reflexivity).
  assert (H3 : step st (byte_of 100) = Ok st') by (vm_compute; reflexivity).
  assert (H4 : pixelOffset st < pixelOffset st') by (vm_compute; reflexivity).
  assert (H5 : pixels st' = Some ([100; 100; 100; 255] ++ repeat 0 8))
    by (vm_compute; reflexivity).
  assert (H6 : pixelOffset st' < TA.length ([100; 100; 100; 255] ++ repeat 0 8))
    by (vm_compute; reflexivity).
  assert (H7 : u8 (byte_of 17) = color_hash (lastPixel st'))
    by (vm_compute; reflexivity).
  destruct (index_of_hash_repeats_pixel st st' _ _ _ _
              H0 H1 H2 H3 H4 H5 H6 H7) as (st'' & E & L & _ & O & _).
  exists st''. split; [exact E|]. split.
  - rewrite L. vm_compute. reflexivity.
  - rewrite O. vm_compute. reflexivity.
Defined.

(** ** The pixel buffer only grows *)

Lemma step_keeps_written (st st' : State) (px : list Z) (b : byte) :
  wf st -> seenHeader st = true -> pixels st = Some px ->
  step st b = Ok st' ->
  exists px',
    pixels st' = Some px' /\ List.length px' = List.length px /\
    pixelOffset st <= pixelOffset st' /\
    forall i, Z.of_nat i < pixelOffset st -> nth i px' 0 = nth i px 0.
Proof.
  intros W S P R.
  pose proof (wf_offset st W) as H0.
  destruct (Z.le_gt_cases (TA.length px) (pixelOffset st)) as [F|F].
  - rewrite (step_trailer st px b) in R by assumption. cbv zeta in R.
    destruct (_ || _); [|discriminate]. injection R as <-.
    exists px. cbn [with_pixelOffset pixels pixelOffset].
    repeat split; try assumption; lia.
  - rewrite (step_opcode st px b) in R by (assumption || lia).
    destruct (opcode_byte_shape st st' px b W S P F R)
      as [(o & buf & off & ->)|(n & p & -> & Hn & Lp & Fn)].
    + exists px. cbn [with_op pixels pixelOffset].
      repeat split; try assumption; lia.
    + eexists. cbn [emitted pixels pixelOffset].
      split; [reflexivity|].
      assert (Lc : List.length (concat (repeat p n)) = (n * 4)%nat)
        by (rewrite length_concat_repeat, Lp; reflexivity).
      unfold TA.length in Fn.
      split; [apply splice_length; lia|]. split; [lia|].
      intros i Hi. rewrite splice_nth by lia.
      destruct (Nat.ltb_spec i (Z.to_nat (pixelOffset st))); [reflexivity|lia].
Qed.

(** X11. The pixel buffer only grows: whatever bytes follow, the buffer
    keeps its length, the write offset never goes back, and every byte
    already written (below the write offset) keeps its value.  The pixels
    decoded from a beginning of the stream are final. *)
Theorem written_pixels_are_final
    (bs : list byte) (st st' : State) (px : list Z) :
  reachable st -> pixels st = Some px -> run_bytes st bs = Ok st' ->
  exists px',
    pixels st' = Some px' /\ TA.length px' = TA.length px /\
    pixelOffset st <= pixelOffset st' /\
    forall i, 0 <= i < pixelOffset st -> TA.get px' i = TA.get px i.
Proof.
  revert st px. induction bs as [|b bs IH]; intros st px R P E.
  - cbn in E. injection E as <-. exists px.
    repeat split; try assumption; lia.
  - cbn [run_bytes] in E.
    destruct (step st b) as [st1|e] eqn:S1; [|discriminate]. cbn [bind] in E.
    destruct (reachable_pixels st px R P) as (W & S).
    destruct (step_keeps_written st st1 px b W S P S1)
      as (px1 & P1 & L1 & O1 & K1).
    assert (R1 : reachable st1) by (eapply reachable_step; eassumption).
    destruct (IH st1 px1 R1 P1 E) as (px' & P' & L' & O' & K').
    exists px'. split; [exact P'|]. unfold TA.length in *.
    split; [lia|]. split; [lia|].
    intros i Hi. rewrite K' by lia. unfold TA.get. apply K1. lia.
Qed.

(** The first pixel of a 1x3 image after two more opcodes. *)
Lemma written_pixels_are_final_witness :
  exists px',
    pixels (state_after [113; 111; 105; 102; 0; 0; 0; 1; 0; 0; 0; 3; 3; 0;
                         254; 100; 100; 100; 74; 0]) = Some px' /\
    TA.get px' 0 = 100 /\ TA.get px' 3 = 255.
Proof.
  set (st := state_after [113; 111; 105; 102; 0; 0; 0; 1; 0; 0; 0; 3; 3; 0;
                          254; 100; 100; 100]).
  set (st' := state_after [113; 111; 105; 102; 0; 0; 0; 1; 0; 0; 0; 3; 3; 0;
                           254; 100; 100; 100; 74; 0]).
  assert (H0 : reachable st) by apply state_after_reachable.
  assert (H1 : pixels st = Some ([100; 100; 100; 255] ++ repeat 0 8))
    by (vm_compute; reflexivity).
  assert (H2 : run_bytes st (bytes_of [74; 0]) = Ok st')
    by (vm_compute; reflexivity).
  destruct (written_pixels_are_final _ st st' _ H0 H1 H2)
    as (px' & P' & _ & _ & K).
  assert (O : pixelOffset st = 4) by (vm_compute; reflexivity).
  exists px'. split; [exact P'|]. split.
  - rewrite K by (rewrite O; lia). reflexivity.
  - rewrite K by (rewrite O; lia). reflexivity.
Defined.

(** ** Which bytes can make the decoder throw *)

Lemma parse_errors (buffer : list Z) (e : Error) :
  parseQoiHeaderBytes buffer = Err e ->
  e = HeaderMagicMismatch \/ e = UnsupportedChannelMode.
Proof.
  unfold parseQoiHeaderBytes, truthy_array.
  destruct (negb (every_magic _ _ _)); [intros H; injection H; auto|].
  destruct (negb (includes _ _)); [intros H; injection H; auto|].
  discriminate.
Qed.

(** X12. The only bytes that make the decoder throw are: the 14th header
    byte (wrong magic, unsupported channels, or a pixel buffer that cannot
    be allocated); a byte after the last pixel that is not the expected
    trailer byte; and a RUN tag whose run does not fit in what is left
    of the pixel buffer.  Every other byte is accepted: in particular no
    INDEX, DIFF, LUMA, RGB or RGBA byte is ever refused, and the
    colorspace error and a TypeError are never raised. *)
Theorem bytes_that_throw (st : State) (b : byte) (e : Error) :
  reachable st -> step st b = Err e ->
  (seenHeader st = false /\ headerBufferOffset st = 13 /\
   (e = HeaderMagicMismatch \/ e = UnsupportedChannelMode \/ e = RangeError))
  \/
  (exists px, pixels st = Some px /\ TA.length px <= pixelOffset st /\
              e = TrailerMismatch)
  \/
  (exists px, pixels st = Some px /\ pixelOffset st < TA.length px /\
              op st = OP_NONE_ID /\ 192 <= u8 b <= 253 /\
              TA.length px < pixelOffset st + 4 * (u8 b - 191) /\
              e = RangeError).
Proof.
  intros R E. pose proof (reachable_wf st R) as W.
  destruct (seenHeader st) eqn:S.
  - right.
    destruct (wf_seen st W S) as (w & h & px & _ & _ & P & _).
    destruct (Z.le_gt_cases (TA.length px) (pixelOffset st)) as [F|F].
    + left. exists px. rewrite (step_trailer st px b) in E by assumption.
      cbv zeta in E. destruct (_ || _); [discriminate|].
      injection E as <-. repeat split; assumption.
    + right. exists px.
      pose proof (wf_room st px W S P F) as F4.
      rewrite (step_opcode st px b) in E by assumption.
      pose proof (wf_op st W) as I. unfold op_inv in I.
      destruct (op st) eqn:O; try contradiction; try (destruct I; congruence).
      * destruct (identify_cases b)
          as [[_ T]|[[_ T]|[[_ T]|[[_ T]|[[_ T]|[_ T]]]]]].
        -- rewrite rgb_tag in E by assumption. discriminate.
        -- rewrite rgba_tag in E by assumption. discriminate.
        -- rewrite opcode_index in E by assumption. discriminate.
        -- rewrite opcode_diff in E by assumption. discriminate.
        -- rewrite opcode_luma1 in E by assumption. discriminate.
        -- rewrite opcode_run in E by (assumption || lia).
           destruct (Z.leb_spec (pixelOffset st + 4 * (u8 b - 191))
                       (TA.length px)); [discriminate|].
           injection E as <-. repeat split; try assumption; lia.
      * rewrite opcode_rgb in E by (try assumption; now right).
        cbv zeta in E. destruct (_ <=? _); discriminate.
      * rewrite opcode_rgba in E by (try assumption; now right).
        cbv zeta in E. destruct (_ <=? _); discriminate.
      * rewrite opcode_luma2 in E by assumption. discriminate.
  - left. split; [reflexivity|].
    unfold step in E. rewrite S in E. cbn [negb] in E.
    unfold header_byte in E.
    destruct (Z.eqb_spec (headerBufferOffset st + 1) 14) as [E14|E14];
      cbn [negb] in E; [|discriminate].
    split; [lia|].
    destruct (parseQoiHeaderBytes _) as [h|e1] eqn:Pe.
    + cbn [bind] in E. unfold TA.make in E.
      destruct (_ || _); [|discriminate]. injection E as <-. auto.
    + cbn [bind] in E. injection E as <-.
      destruct (parse_errors _ _ Pe); auto.
Qed.

(** A byte 9 after the only pixel of a 1x1 image. *)
Lemma bytes_that_throw_witness :
  exists px,
    pixels (state_after [113; 111; 105; 102; 0; 0; 0; 1; 0; 0; 0; 1; 4; 0; 0])
    = Some px /\ TA.length px = 4.
Proof.
  set (st := state_after [113; 111; 105; 102; 0; 0; 0; 1; 0; 0; 0; 1; 4; 0; 0]).
  assert (H0 : reachable st) by apply state_after_reachable.
  assert (H1 : step st (byte_of 9) = Err TrailerMismatch)
    by (vm_compute; reflexivity).
  assert (S : seenHeader st = true) by (vm_compute; reflexivity).
  assert (P : pixels st = Some [0; 0; 0; 0]) by (vm_compute; reflexivity).
  destruct (bytes_that_throw st _ _ H0 H1)
    as [(S' & _)|[(px & P' & _)|(px & P' & _)]].
  - rewrite S in S'. discriminate.
  - exists px. split; [exact P'|].
    rewrite P in P'. injection P' as <-. reflexivity.
  - exists px. split; [exact P'|].
    rewrite P in P'. injection P' as <-. reflexivity.
Defined.

(** ** What the caller receives *)

Lemma byte_values_copies (p : list Z) (n : nat) :
  byte_values p -> byte_values (concat (repeat p n)).
Proof.
  intros H. induction n as [|n IH]; cbn [repeat concat].
  - constructor.
  - apply Forall_app. split; assumption.
Qed.

Lemma pixel_values :
  forall bs st, run_bytes init bs = Ok st ->
    forall px, pixels st = Some px -> byte_values px.
Proof.
  apply (run_bytes_ind
           (fun _ st => forall px, pixels st = Some px -> byte_values px)).
  - discriminate.
  - intros bs st b st' Rn IH S px' P'.
    assert (R : reachable st) by (exists bs; exact Rn).
    pose proof (reachable_wf st R) as W.
    pose proof (step_wf st st' b W S) as W'.
    destruct (seenHeader st) eqn:Se.
    + destruct (wf_seen st W Se) as (w & h & px & _ & _ & P & _).
      specialize (IH px P).
      destruct (Z.le_gt_cases (TA.length px) (pixelOffset st)) as [F|F].
      * rewrite (step_trailer st px b) in S by assumption. cbv zeta in S.
        destruct (_ || _); [|discriminate]. injection S as <-.
        cbn [with_pixelOffset pixels] in P'. congruence.
      * rewrite (step_opcode st px b) in S by (assumption || lia).
        destruct (opcode_byte_shape st st' px b W Se P F S)
          as [(o & buf & off & ->)|(n & p & -> & Hn & Lp & Fn)].
        -- cbn [with_op pixels] in P'. congruence.
        -- cbn [emitted pixels] in P'. injection P' as <-.
           apply splice_Forall; [exact IH|].
           apply byte_values_copies. exact (wf_last_val _ W').
    + unfold step in S. rewrite Se in S. cbn [negb] in S.
      unfold header_byte in S.
      destruct (negb (_ =? 14)).
      * injection S as <-. cbn [pixels] in P'.
        destruct (wf_unseen st W Se) as (_ & _ & P & _). congruence.
      * destruct (parseQoiHeaderBytes _) as [h|e1]; [|discriminate].
        cbn [bind] in S.
        destruct (TA.make _) as [px|e2] eqn:M; [|discriminate].
        cbn [bind] in S. injection S as <-. cbn [pixels] in P'.
        injection P' as <-. apply make_inv in M. destruct M as [_ ->].
        apply byte_values_repeat0.
Qed.

(** X13. Whenever the session returns a pixel buffer, it returns the
    width and height too, the buffer has exactly [width * height * 4]
    entries and every entry is a byte value (0 to 255).  These are the
    three values the worker passes to [ImageData(pixels, width, height)]. *)
Theorem returned_buffer_fits_dimensions
    (stream : list (list byte)) (out : Output) (px : list Z) :
  getQoiPixelData stream = Ok out -> out_pixels out = Some px ->
  exists w h,
    out_width out = Some w /\ out_height out = Some h /\
    TA.length px = w * h * 4 /\ byte_values px.
Proof.
  unfold getQoiPixelData. intros E P.
  destruct (run_chunks init stream) as [st|e] eqn:R; [|discriminate].
  cbn [bind] in E. injection E as <-. cbn [out_pixels] in P.
  rewrite run_chunks_concat in R.
  assert (Re : reachable st) by (exists (concat stream); exact R).
  destruct (reachable_pixels st px Re P) as (W & S).
  destruct (wf_seen st W S) as (w & h & px0 & Hw & Hh & P0 & L & _).
  rewrite P in P0. injection P0 as <-.
  exists w, h. cbn [out_width out_height].
  repeat split; try assumption.
  exact (pixel_values _ st R px P).
Qed.

(** A 1x3 image cut after its first pixel. *)
Lemma returned_buffer_fits_dimensions_witness :
  exists w h,
    Some 1 = Some w /\ Some 3 = Some h /\
    TA.length [100; 100; 100; 255; 0; 0; 0; 0; 0; 0; 0; 0] = w * h * 4 /\
    byte_values [100; 100; 100; 255; 0; 0; 0; 0; 0; 0; 0; 0].
Proof.
  refine (returned_buffer_fits_dimensions
            [bytes_of [113; 111; 105; 102; 0; 0; 0; 1; 0; 0; 0; 3; 3; 0;
                       254; 100; 100; 100]]
            (mkOutput (Some 1) (Some 3)
               (Some [100; 100; 100; 255; 0; 0; 0; 0; 0; 0; 0; 0]))
            [100; 100; 100; 255; 0; 0; 0; 0; 0; 0; 0; 0] _ _).
  - vm_compute. reflexivity.
  - reflexivity.
Defined.

(** ** The channels and colorspace fields *)

Lemma finish_forget (st : State) (px : list Z) (off : Z) (p buf : list Z) :
  finish (forget_modes st) px off p buf
  = map_result forget_modes (finish st px off p buf).
Proof.
  unfold finish. cbn [forget_modes indexValues].
  destruct (TA.set (indexValues st) p _); reflexivity.
Qed.

Lemma bind_finish_forget (r : result (list Z)) (st : State) (off : Z)
    (p buf : list Z) :
  (px' <- r ;; finish (forget_modes st) px' off p buf)
  = map_result forget_modes (px' <- r ;; finish st px' off p buf).
Proof. destruct r; cbn [bind]; [apply finish_forget|reflexivity]. Qed.

Lemma opcode_byte_forget (st : State) (px : list Z) (byte : Z) :
  opcode_byte (forget_modes st) px byte
  = map_result forget_modes (opcode_byte st px byte).
Proof.
  unfold opcode_byte, current_opcode.
  cbn [forget_modes op opOffset opBuffer lastPixel indexValues pixelOffset].
  destruct (match op st with OP_NONE_ID => identify byte | o => o end).
  - apply finish_forget.
  - apply finish_forget.
  - destruct (_ <=? 3); [reflexivity|].
    destruct (TA.set (lastPixel st) _ 0); cbn [bind]; [|reflexivity].
    apply bind_finish_forget.
  - destruct (_ <=? 4); [reflexivity|].
    destruct (TA.set (lastPixel st) _ 0); cbn [bind]; [|reflexivity].
    apply bind_finish_forget.
  - destruct (TA.set (lastPixel st) _ 0); cbn [bind]; [|reflexivity].
    apply bind_finish_forget.
  - apply bind_finish_forget.
  - destruct (opOffset st =? 0); [reflexivity|].
    apply bind_finish_forget.
  - destruct (run_loop _ _ _ _); cbn [bind]; [apply finish_forget|reflexivity].
Qed.

Lemma step_forget (st : State) (b : byte) :
  seenHeader st = true ->
  step (forget_modes st) b = map_result forget_modes (step st b).
Proof.
  intros S. unfold step. cbn [forget_modes seenHeader pixels pixelOffset].
  rewrite S. cbn [negb].
  destruct (pixels st) as [px|]; [|reflexivity].
  destruct (_ <=? _).
  - unfold trailer_byte. cbn [forget_modes pixelOffset].
    destruct (_ || _ || _); reflexivity.
  - apply opcode_byte_forget.
Qed.

Lemma run_bytes_forget (bs : list byte) :
  forall st, wf st -> seenHeader st = true ->
    run_bytes (forget_modes st) bs
    = map_result forget_modes (run_bytes st bs).
Proof.
  induction bs as [|b bs IH]; intros st W S; [reflexivity|].
  cbn [run_bytes]. rewrite step_forget by exact S.
  destruct (step st b) as [st1|e] eqn:E; [|reflexivity].
  cbn [map_result bind]. apply IH.
  - exact (step_wf st st1 b W E).
  - exact (proj1 (step_keeps_header st st1 b W S E)).
Qed.

Lemma after_header_wf (hb : list byte) (h : Header) (px : list Z) :
  List.length hb = 14%nat ->
  parseQoiHeaderBytes (map u8 hb) = Ok h ->
  TA.make (h_width h * h_height h * 4) = Ok px ->
  wf (after_header hb h px).
Proof.
  intros L P M. apply reachable_wf. exists hb.
  rewrite run_header by exact L. rewrite P. cbn [bind]. rewrite M.
  reflexivity.
Qed.

(** X14. The channels and colorspace bytes of the header are stored and
    never read again: two streams whose headers give the same width and
    height and whose bytes after the header are the same decode to the
    same result, the same width, height and pixels or the same error,
    whatever their channels and colorspace bytes are.  In particular an
    RGBA opcode sets the alpha in a stream declared with 3 channels. *)
Theorem channels_and_colorspace_are_ignored
    (hb1 hb2 rest : list byte) (h1 h2 : Header) :
  List.length hb1 = 14%nat -> List.length hb2 = 14%nat ->
  parseQoiHeaderBytes (map u8 hb1) = Ok h1 ->
  parseQoiHeaderBytes (map u8 hb2) = Ok h2 ->
  h_width h1 = h_width h2 -> h_height h1 = h_height h2 ->
  getQoiPixelData [hb1 ++ rest] = getQoiPixelData [hb2 ++ rest].
Proof.
  intros L1 L2 P1 P2 Ew Eh. unfold getQoiPixelData.
  rewrite !run_chunks_concat. cbn [concat]. rewrite !app_nil_r.
  rewrite !run_header_app by assumption. rewrite P1, P2. cbn [bind].
  rewrite Ew, Eh.
  destruct (TA.make (h_width h2 * h_height h2 * 4)) as [px|e] eqn:M;
    [|reflexivity].
  cbn [bind].
  assert (M1 : TA.make (h_width h1 * h_height h1 * 4) = Ok px)
    by (rewrite Ew, Eh; exact M).
  pose proof (after_header_wf hb1 h1 px L1 P1 M1) as W1.
  pose proof (after_header_wf hb2 h2 px L2 P2 M) as W2.
  assert (F : forget_modes (after_header hb1 h1 px)
              = forget_modes (after_header hb2 h2 px)).
  { unfold forget_modes, after_header.
    cbn [seenHeader headerBufferOffset width height pixels pixelOffset
         lastPixel indexValues op opBuffer opOffset].
    rewrite Ew, Eh. reflexivity. }
  pose proof (run_bytes_forget rest _ W1 eq_refl) as R1.
  pose proof (run_bytes_forget rest _ W2 eq_refl) as R2.
  rewrite F, R2 in R1.
  destruct (run_bytes (after_header hb1 h1 px) rest) as [s1|e1];
    destruct (run_bytes (after_header hb2 h2 px) rest) as [s2|e2];
    cbn [map_result] in R1; try discriminate; cbn [bind].
  - pose proof (f_equal (map_result width) R1) as Hw.
    pose proof (f_equal (map_result height) R1) as Hh.
    pose proof (f_equal (map_result pixels) R1) as Hp.
    cbn [map_result forget_modes width height pixels] in Hw, Hh, Hp.
    injection Hw as Hw. injection Hh as Hh. injection Hp as Hp.
    rewrite Hw, Hh, Hp. reflexivity.
  - injection R1 as ->. reflexivity.
Qed.

(** The same 1x1 stream declared with 3 channels, sRGB, and with 4
    channels, linear. *)
Lemma channels_and_colorspace_are_ignored_witness :
  getQoiPixelData
    [bytes_of [113; 111; 105; 102; 0; 0; 0; 1; 0; 0; 0; 1; 3; 0]
     ++ bytes_of [255; 10; 20; 30; 40; 0; 0; 0; 0; 0; 0; 0; 1]]
  = getQoiPixelData
      [bytes_of [113; 111; 105; 102; 0; 0; 0; 1; 0; 0; 0; 1; 4; 1]
       ++ bytes_of [255; 10; 20; 30; 40; 0; 0; 0; 0; 0; 0; 0; 1]].
Proof.
  apply (channels_and_colorspace_are_ignored _ _ _
           (mkHeader 1 1 3 0) (mkHeader 1 1 4 1)); reflexivity.
Defined.

(** ** The header fields *)




Lemma run_keeps_header (bs : list byte) :
  forall st st', wf st -> seenHeader st = true ->
    run_bytes st bs = Ok st' ->
    width st' = width st /\ height st' = height st.
Proof.
  induction bs as [|b bs IH]; intros st st' W S R.
  - cbn in R. injection R as <-. split; reflexivity.
  - cbn [run_bytes] in R.
    destruct (step st b) as [st1|e] eqn:E; [|discriminate]. cbn [bind] in R.
    destruct (step_keeps_header st st1 b W S E) as (S1 & Hw & Hh).
    destruct (IH st1 st' (step_wf st st1 b W E) S1 R) as (Hw' & Hh').
    split; congruence.
Qed.

(** X16. Whenever a session that has read at least 14 bytes returns, the
    width and height it returns are the ones parsed from the first 14
    bytes: no later byte changes them. *)
Theorem returned_dimensions_are_from_header
    (stream : list (list byte)) (hb rest : list byte) (out : Output) :
  concat stream = hb ++ rest -> List.length hb = 14%nat ->
  getQoiPixelData stream = Ok out ->
  exists h,
    parseQoiHeaderBytes (map u8 hb) = Ok h /\
    out_width out = Some (h_width h) /\ out_height out = Some (h_height h).
Proof.
  intros C L E. unfold getQoiPixelData in E.
  rewrite run_chunks_concat, C, run_header_app in E by exact L.
  destruct (parseQoiHeaderBytes (map u8 hb)) as [h|e1] eqn:P; [|discriminate].
  cbn [bind] in E.
  destruct (TA.make _) as [px|e2] eqn:M; [|discriminate]. cbn [bind] in E.
  destruct (run_bytes (after_header hb h px) rest) as [st|e3] eqn:R;
    [|discriminate].
  cbn [bind] in E. injection E as <-.
  destruct (run_keeps_header rest _ st (after_header_wf hb h px L P M)
              eq_refl R) as (Hw & Hh).
  exists h. split; [reflexivity|]. cbn [out_width out_height].
  rewrite Hw, Hh. split; reflexivity.
Qed.

(** A complete 1x1 image. *)
Lemma returned_dimensions_are_from_header_witness :
  exists h,
    parseQoiHeaderBytes
      (map u8 (bytes_of [113; 111; 105; 102; 0; 0; 0; 1; 0; 0; 0; 1; 4; 0]))
    = Ok h /\
    Some 1 = Some (h_width h) /\ Some 1 = Some (h_height h).
Proof.
  refine (returned_dimensions_are_from_header
            [bytes_of [113; 111; 105; 102; 0; 0; 0; 1; 0; 0; 0; 1; 4; 0;
                       255; 10; 20; 30; 255; 0; 0; 0; 0; 0; 0; 0; 1]]
            (bytes_of [113; 111; 105; 102; 0; 0; 0; 1; 0; 0; 0; 1; 4; 0])
            (bytes_of [255; 10; 20; 30; 255; 0; 0; 0; 0; 0; 0; 0; 1])
            (mkOutput (Some 1) (Some 1) (Some [10; 20; 30; 255])) _ _ _).
  - reflexivity.
  - reflexivity.
  - vm_compute. reflexivity.
Defined.
